(** * xargs: batching of standard input into command lines

    A shallow embedding of [toys/posix/xargs.c]: the tokenizer
    [handle_entries], the two passes (count, then fill) of [xargs_main]
    and its loop over exec chunks, followed by the properties stated
    about them.

    Conventions of the embedding.
    - A [char] is a [Byte.byte]; a buffer is the list of its bytes, the
      terminating NUL of the C string being the end of the list (an
      embedded NUL byte terminates the C string earlier, as in C).
    - A [char *] walking a buffer is a [cursor]: the bytes before the
      pointer (most recent first) and the bytes from the pointer on.
      Stores through the pointer change the buffer in place.
    - [long] and [int] counters are in [Z]; they count bytes of input
      held in memory and never come near the width of the C types.
    - The globals [TT] are threaded explicitly.
    - Standard input, the children's wait statuses and the answers read
      from the terminal are given by a [world]. *)

From Stdlib Require Import ZArith Lia Bool Strings.Byte String.
From stdpp Require Import base list.

(** ** Characters and C strings *)

(** [isspace] in the C locale. *)
Definition isspace (c : byte) : bool :=
  match c with
  | x09 | x0a | x0b | x0c | x0d | x20 => true
  | _ => false
  end.

Definition is_nul (c : byte) : bool :=
  match c with x00 => true | _ => false end.

#[global] Instance byte_eq_decision : EqDecision byte := Byte.byte_eq_dec.

(** [strlen p], for [p] pointing at the bytes [l]. *)
Fixpoint strlen (l : list byte) : nat :=
  match l with
  | [] => 0
  | c :: r => if is_nul c then 0 else S (strlen r)
  end.

(** The C string [p] points at: the bytes up to the first NUL. *)
Fixpoint cstr (l : list byte) : list byte :=
  match l with
  | [] => []
  | c :: r => if is_nul c then [] else c :: cstr r
  end.

(** [!strncmp(a, b, k)]. *)
Fixpoint strncmp_eq (k : nat) (a b : list byte) : bool :=
  match k with
  | 0 => true
  | S k =>
      let x := hd x00 a in
      let y := hd x00 b in
      if Byte.eqb x y
      then (if is_nul x then true else strncmp_eq k (tl a) (tl b))
      else false
  end.

(** ** Pointers into a buffer *)

Record cursor := Cursor { before : list byte; after : list byte }.

Definition deref (c : cursor) : byte := hd x00 (after c).
Definition offset (c : cursor) : nat := length (before c).
Definition contents (c : cursor) : list byte := rev (before c) ++ after c.

(** Values of type [char *] stored in an argument vector: one of the
    fixed arguments [toys.optargs[i]], or a position in one of the
    pending lines. *)
Inductive charp :=
| ArgStr (i : nat)
| LinePtr (line : nat) (off : nat).

(** An array of [char *]; [None] is the null pointer. *)
Abbreviation vec := (list (option charp)).

(** ** Results *)

Inductive res (A : Type) : Type :=
| Ok (a : A)
| Fault        (* a store or a read outside the allocated vector *)
| OutOfFuel.
Arguments Ok {A} a.
Arguments Fault {A}.
Arguments OutOfFuel {A}.

#[global] Instance res_bind : MBind res := fun A B k r =>
  match r with
  | Ok a => k a
  | Fault => Fault
  | OutOfFuel => OutOfFuel
  end.

(** ** The globals *)

Module TT.
Record t := mk {
  s : Z;
  n : Z;
  E : option (list byte);
  entries : Z;
  bytes : Z;
  delim : byte;
  tty : bool                 (* the FILE * is open *)
}.

Definition set_entries (tt : t) (v : Z) : t :=
  mk (s tt) (n tt) (E tt) v (bytes tt) (delim tt) (tty tt).
Definition set_bytes (tt : t) (v : Z) : t :=
  mk (s tt) (n tt) (E tt) (entries tt) v (delim tt) (tty tt).
Definition set_s (tt : t) (v : Z) : t :=
  mk v (n tt) (E tt) (entries tt) (bytes tt) (delim tt) (tty tt).
Definition set_delim (tt : t) (v : byte) : t :=
  mk (s tt) (n tt) (E tt) (entries tt) (bytes tt) v (tty tt).
Definition set_tty (tt : t) (v : bool) : t :=
  mk (s tt) (n tt) (E tt) (entries tt) (bytes tt) (delim tt) v.
End TT.

(** ** handle_entries *)

(** What [handle_entries] returns: NULL, a pointer to the data left
    over (its offset in the buffer), [(char * )1] or [(char * )2]. *)
Inductive hret :=
| Hnull
| Hleft (off : nat)
| Hone
| Htwo.

(** [while (isspace( *s)) { if (entry) *s = 0; s++; }] *)
Fixpoint skip_space (fill : bool) (bef aft : list byte) : cursor :=
  match aft with
  | c :: r =>
      if isspace c
      then skip_space fill ((if fill then x00 else c) :: bef) r
      else Cursor bef aft
  | [] => Cursor bef aft
  end.

(** [for (;;) { if (++TT.bytes >= TT.s && TT.s) return save;
                if (! *s || isspace( *s)) break;  s++; }]
    The result is the value of [TT.bytes], and [s] after the [break],
    or [None] for the [return]. *)
Fixpoint scan_token (lim b : Z) (bef aft : list byte) : Z * option cursor :=
  let b := (b + 1)%Z in
  if (b >=? lim)%Z && negb (lim =? 0)%Z then (b, None)
  else
    match aft with
    | [] => (b, Some (Cursor bef aft))
    | c :: r =>
        if is_nul c || isspace c then (b, Some (Cursor bef aft))
        else scan_token lim b (c :: bef) r
    end.

(** [if (entry) entry[i] = p;] where [entry] is [out + base]. *)
Definition store_entry (entry : option nat) (out : vec) (i : Z) (p : charp)
  : res vec :=
  match entry with
  | None => Ok out
  | Some base =>
      if (0 <=? i)%Z && (base + Z.to_nat i <? length out)%nat
      then Ok (<[(base + Z.to_nat i)%nat := Some p]> out)
      else Fault
  end.

(** [len == strlen(TT.E) && !strncmp(save, TT.E, len)] *)
Definition matches_E (e : list byte) (save s : cursor) : bool :=
  let len := (offset s - offset save)%nat in
  (len =? strlen e)%nat && strncmp_eq len (after save) e.

Definition hresult : Type := hret * TT.t * list byte * vec.

(** The whitespace branch: the loop [while ( *s)], with [s] at [c]. *)
Fixpoint chop (fuel : nat) (tt : TT.t) (blk : nat) (c : cursor)
    (entry : option nat) (out : vec) : res hresult :=
  match fuel with
  | O => OutOfFuel
  | S fuel =>
      if is_nul (deref c) then Ok (Hnull, tt, contents c, out)
      else
        let c := skip_space (bool_decide (entry <> None)) (before c) (after c) in
        if negb (TT.n tt =? 0)%Z && (TT.entries tt >=? TT.n tt)%Z
        then Ok (if is_nul (deref c) then Hone else Hleft (offset c),
                 tt, contents c, out)
        else if is_nul (deref c) then Ok (Hnull, tt, contents c, out)
        else
          let save := c in
          let '(b, r) := scan_token (TT.s tt) (TT.bytes tt) (before c) (after c) in
          let tt := TT.set_bytes tt b in
          match r with
          | None => Ok (Hleft (offset save), tt, contents save, out)
          | Some c =>
              if match TT.E tt with
                 | Some e => matches_E e save c
                 | None => false
                 end
              then Ok (Htwo, tt, contents c, out)
              else
                out ← store_entry entry out (TT.entries tt)
                        (LinePtr blk (offset save));
                chop fuel (TT.set_entries tt (TT.entries tt + 1)%Z) blk c entry out
          end
  end.

Section Host.

(** [sizeof(char * )] on the target. *)
Variable sizeof_charp : Z.

(** [handle_entries(data, entry)]: [data] is the start of pending line
    number [blk], whose bytes are [buf]; [entry] is [out + base], or
    NULL.  Returns the result, the globals, the bytes of the line and
    the vector after the call. *)
Definition handle_entries (tt : TT.t) (blk : nat) (buf : list byte)
    (entry : option nat) (out : vec) : res hresult :=
  if negb (is_nul (TT.delim tt)) then
    chop (S (length buf)) tt blk (Cursor [] buf) entry out
  else
    let tt := TT.set_bytes tt
                (TT.bytes tt + (sizeof_charp + Z.of_nat (strlen buf) + 1))%Z in
    if negb (TT.s tt =? 0)%Z && (TT.bytes tt >=? TT.s tt)%Z
    then Ok (Hleft 0, tt, buf, out)
    else if negb (TT.n tt =? 0)%Z && (TT.entries tt >=? TT.n tt)%Z
    then Ok (Hleft 0, tt, buf, out)
    else
      out ← store_entry entry out (TT.entries tt) (LinePtr blk 0);
      Ok (Hnull, TT.set_entries tt (TT.entries tt + 1)%Z, buf, out).

(** ** The environment of a run *)

(** [toys.optargs] (with [toys.optc] its length) and the flags. *)
Record toy_context := {
  optargs : list (list byte);
  FLAG_0 : bool;
  FLAG_o : bool;
  FLAG_p : bool;
  FLAG_r : bool;
  FLAG_t : bool
}.

(** What the run reads from outside: the bytes of standard input, the
    status [waitpid] stores for the child of command line number [k]
    run on the given arguments, the answer [fyesno] reads from the
    terminal for command line number [k], and the two host limits. *)
Record world := {
  stdin : list byte;
  wait_status : nat -> list (list byte) -> Z;
  fyesno : nat -> bool;
  sysconf_ARG_MAX : Z;
  environ_bytes : Z
}.

(** The lines [getdelim] returns from a stream, one per call, each with
    its delimiter; the call after the last returns -1. *)
Fixpoint getdelim (delim : byte) (stream : list byte) : list (list byte) :=
  match stream with
  | [] => []
  | c :: r =>
      if Byte.eqb c delim then [c] :: getdelim delim r
      else match getdelim delim r with
           | [] => [[c]]
           | l :: ls => (c :: l) :: ls
           end
  end.

(** The macros of [<sys/wait.h>] on Linux. *)
Definition WTERMSIG (status : Z) : Z := Z.land status 127.
Definition WEXITSTATUS (status : Z) : Z := Z.shiftr (Z.land status 65280) 8.
Definition WIFEXITED (status : Z) : bool := (WTERMSIG status =? 0)%Z.

(** [status = WIFEXITED(status) ? WEXITSTATUS(status) : WTERMSIG(status)+127;] *)
Definition decode_status (status : Z) : Z :=
  if WIFEXITED status then WEXITSTATUS status
  else (WTERMSIG status + 127)%Z.

(** What a run does that is visible from outside: a command line run
    in a child (with the child's standard input and the decoded
    status), or a command line the user declined at the prompt. *)
Inductive event :=
| Run (argv : list (list byte)) (stdin_tty : bool) (status : Z)
| Declined (argv : list (list byte)).

Inductive outcome :=
| Returned
| ErrorExit (msg : string).

(** ** xargs_main *)

(** [if (!toys.optc) { ... *(toys.optargs = xzalloc(...)) = "echo";
     toys.optc = 1; }] *)
Definition default_echo (toys : toy_context) : toy_context :=
  if (length (optargs toys) =? 0)%nat
  then Build_toy_context [list_byte_of_string "echo"] (FLAG_0 toys)
         (FLAG_o toys) (FLAG_p toys) (FLAG_r toys) (FLAG_t toys)
  else toys.

(** The locals of [xargs_main] that live across iterations, the
    globals, the lines not yet read and the number of command lines
    built so far. *)
Record locals := Locals {
  tt : TT.t;
  dlist : list (list byte);
  data : option (list byte);
  done : Z;
  unread : list (list byte);
  built : nat
}.

(** [for (...; entries < toys.optc; entries++, bytes++)
      bytes += strlen(toys.optargs[entries]);] *)
Fixpoint prefix_bytes (args : list (list byte)) (bytes : Z) : Z :=
  match args with
  | [] => bytes
  | a :: r => prefix_bytes r (bytes + Z.of_nat (strlen a) + 1)%Z
  end.

(** The string a stored pointer points at. *)
Definition string_at (args lines : list (list byte)) (p : charp) : list byte :=
  match p with
  | ArgStr i => cstr (nth i args [])
  | LinePtr l o => cstr (drop o (nth l lines []))
  end.

(** The argument strings [exec] (and the trace loop) read from [out]:
    up to the first null pointer. *)
Fixpoint argv_of (args lines : list (list byte)) (out : vec)
  : res (list (list byte)) :=
  match out with
  | [] => Fault
  | None :: _ => Ok []
  | Some p :: r => a ← argv_of args lines r; Ok (string_at args lines p :: a)
  end.

(** What happens to [data] and [done] after
    [data = handle_entries(data, NULL)] on the line [line]:
    [None] for [continue], else the values at the [break]. *)
Definition after_count (r : hret) (line : list byte) (done : Z)
  : option (option (list byte) * Z) :=
  match r with
  | Hnull => None
  | Htwo => Some (None, (done + 1)%Z)
  | Hone => Some (None, done)
  | Hleft off => Some (Some (cstr (drop off line)), done)
  end.

(** The loop reading input, entered with [data == NULL]. *)
Fixpoint read_input (tt : TT.t) (dlist : list (list byte)) (done : Z)
    (unread : list (list byte))
  : res (TT.t * list (list byte) * option (list byte) * Z * list (list byte)) :=
  match unread with
  | [] => Ok (tt, dlist, None, (done + 1)%Z, [])
  | line :: unread =>
      let dlist := dlist ++ [line] in
      '(r, tt, _, _) ← handle_entries tt (length dlist - 1) line None [];
      match after_count r line done with
      | None => read_input tt dlist done unread
      | Some (data, done) => Ok (tt, dlist, data, done, unread)
      end
  end.

(** The loop reading input. *)
Definition count_pass (tt : TT.t) (dlist : list (list byte))
    (data : option (list byte)) (done : Z) (unread : list (list byte))
  : res (TT.t * list (list byte) * option (list byte) * Z * list (list byte)) :=
  match data with
  | None => read_input tt dlist done unread
  | Some line =>
      let dlist := dlist ++ [line] in
      '(r, tt, _, _) ← handle_entries tt (length dlist - 1) line None [];
      match after_count r line done with
      | None => read_input tt dlist done unread
      | Some (data, done) => Ok (tt, dlist, data, done, unread)
      end
  end.

(** [for (dtemp = dlist; dtemp; dtemp = dtemp->next)
      handle_entries(dtemp->data, out+entries);]
    over the lines from number [i] on. *)
Fixpoint fill_pass (tt : TT.t) (i : nat) (lines : list (list byte))
    (entries : nat) (out : vec) : res (TT.t * list (list byte) * vec) :=
  match lines with
  | [] => Ok (tt, [], out)
  | l :: rest =>
      '(_, tt, l, out) ← handle_entries tt i l (Some entries) out;
      '(tt, rest, out) ← fill_pass tt (S i) rest entries out;
      Ok (tt, l :: rest, out)
  end.

(** [out = xzalloc((entries+TT.entries+1)*sizeof(char * ));
     memcpy(out, toys.optargs, entries*sizeof(char * ));] *)
Definition alloc_out (entries : nat) (tt_entries : Z) : vec :=
  (Some ∘ ArgStr <$> seq 0 entries)
  ++ drop entries (replicate (entries + Z.to_nat tt_entries + 1) None).

Section Run.

Variable toys : toy_context.
Variable w : world.

(** The loop through exec chunks; [entries] and [bytes] are the locals
    computed before it. *)
Fixpoint exec_chunks (fuel : nat) (entries : nat) (bytes : Z) (st : locals)
  : res (list event * outcome) :=
  match fuel with
  | O => OutOfFuel
  | S fuel =>
      if bool_decide (data st <> None) || (done st =? 0)%Z then
        let tt := TT.set_bytes (TT.set_entries (tt st) 0) bytes in
        '(tt, dlist, data, done, unread) ←
           count_pass tt (dlist st) (data st) (done st) (unread st);
        if (TT.entries tt =? 0)%Z && FLAG_r toys then
          exec_chunks fuel entries bytes
            (Locals tt dlist data done unread (built st))
        else if bool_decide (data <> None) && (TT.entries tt =? 0)%Z then
          Ok ([], ErrorExit "argument too long")
        else
          let out := alloc_out entries (TT.entries tt) in
          let tt := TT.set_bytes (TT.set_entries tt 0) bytes in
          '(tt, lines, out) ← fill_pass tt 0 dlist entries out;
          argv ← argv_of (optargs toys) lines out;
          let doit := if FLAG_p toys then fyesno w (built st) else true in
          let tt := if FLAG_p toys then TT.set_tty tt true else tt in
          let ev :=
            if doit
            then Run argv (FLAG_o toys)
                   (decode_status (wait_status w (built st) argv))
            else Declined argv in
          '(evs, o) ← exec_chunks fuel entries bytes
                        (Locals tt [] data done unread (S (built st)));
          Ok (ev :: evs, o)
      else Ok ([], Returned)
  end.

End Run.

(** [xargs_main], for the globals [tt] as option parsing left them
    ([TT.s], [TT.n] and [TT.E] from -s, -n and -E, the rest zero). *)
Definition xargs_main (fuel : nat) (toys : toy_context) (tt : TT.t) (w : world)
  : res (list event * outcome) :=
  let posix_max_bytes := (sysconf_ARG_MAX w - environ_bytes w - 2048)%Z in
  let tt :=
    if (TT.s tt =? 0)%Z || (TT.s tt >? posix_max_bytes)%Z
    then TT.set_s tt posix_max_bytes else tt in
  let tt := if negb (FLAG_0 toys) then TT.set_delim tt x0a else tt in
  let toys := default_echo toys in
  let entries := length (optargs toys) in
  let bytes := prefix_bytes (optargs toys) (-1) in
  exec_chunks toys w fuel entries bytes
    (Locals tt [] None 0 (getdelim (TT.delim tt) (stdin w)) 0).

End Host.

(** The globals after option parsing. *)
Definition parsed (s n : Z) (E : option (list byte)) : TT.t :=
  TT.mk s n E 0 0 x00 false.

(** ** The input as a stream of tokens *)

(** The whitespace-separated words of a text: its maximal runs of
    bytes that are not whitespace, in order. *)
Fixpoint words (l : list byte) : list (list byte) :=
  match l with
  | [] => []
  | c :: r =>
      if isspace c then words r
      else match r with
           | [] => [[c]]
           | c' :: _ =>
               if isspace c' then [c] :: words r
               else match words r with
                    | w :: ws => (c :: w) :: ws
                    | [] => [[c]]
                    end
           end
  end.

(** The tokens of standard input: NUL-terminated records with -0,
    words otherwise. *)
Definition input_tokens (null : bool) (stream : list byte) : list (list byte) :=
  if null then cstr <$> getdelim x00 stream else words stream.

(** The tokens of one pending line. *)
Definition line_tokens (null : bool) (line : list byte) : list (list byte) :=
  if null then [cstr line] else words line.

Definition nul_free (l : list byte) : Prop := Forall (fun c => is_nul c = false) l.

(** The arguments a command line passes after the fixed ones. *)
Definition argv_of_event (ev : event) : list (list byte) :=
  match ev with
  | Run argv _ _ => argv
  | Declined argv => argv
  end.

Definition collected (entries : nat) (ev : event) : list (list byte) :=
  drop entries (argv_of_event ev).


(** The fixed arguments in effect, as strings. *)
Definition command (toys : toy_context) : list (list byte) :=
  cstr <$> optargs (default_echo toys).

(** [TT.s] after the clamp to the host limit. *)
Definition effective_s (tt : TT.t) (w : world) : Z :=
  let posix_max_bytes := (sysconf_ARG_MAX w - environ_bytes w - 2048)%Z in
  if (TT.s tt =? 0)%Z || (TT.s tt >? posix_max_bytes)%Z
  then posix_max_bytes else TT.s tt.

(** * Properties *)

(** ** Characters, words and lines *)

Lemma isspace_not_nul c : isspace c = true -> is_nul c = false.
Proof. by destruct c. Qed.

Lemma is_nul_spec c : is_nul c = true <-> c = x00.
Proof. by destruct c. Qed.

Lemma nul_free_cstr l : nul_free l -> cstr l = l.
Proof.
  induction 1 as [|c l Hc _ IH]; simpl; [done|]. by rewrite Hc, IH.
Qed.

Lemma nul_free_strlen l : nul_free l -> strlen l = length l.
Proof.
  induction 1 as [|c l Hc _ IH]; simpl; [done|]. by rewrite Hc, IH.
Qed.

Lemma strlen_cstr l : strlen l = length (cstr l).
Proof. induction l as [|c l IH]; simpl; [done|]. destruct (is_nul c); simpl; congruence. Qed.

Lemma cstr_nul_free l : nul_free (cstr l).
Proof.
  induction l as [|c l IH]; simpl; [constructor|].
  destruct (is_nul c) eqn:Hc; [constructor|]. by constructor.
Qed.

Lemma cstr_idemp l : cstr (cstr l) = cstr l.
Proof. apply nul_free_cstr, cstr_nul_free. Qed.

Lemma nul_free_app l k : nul_free (l ++ k) <-> nul_free l /\ nul_free k.
Proof. apply Forall_app. Qed.

Lemma nul_free_drop l k : nul_free l -> nul_free (drop k l).
Proof. apply Forall_drop. Qed.

(** Leading whitespace does not contribute words. *)
Lemma words_spaces sp l :
  Forall (fun c => isspace c = true) sp -> words (sp ++ l) = words l.
Proof. induction 1 as [|c sp Hc _ IH]; simpl; [done|]. by rewrite Hc. Qed.

(** A run of non-blank bytes followed by the end or by whitespace is
    the first word. *)
Lemma words_token tok l :
  tok <> [] ->
  Forall (fun c => isspace c = false) tok ->
  isspace (hd x20 l) = true ->
  words (tok ++ l) = tok :: words l.
Proof.
  intros Hne Htok Hl. induction Htok as [|c tok Hc Htok IH]; [done|].
  simpl. rewrite Hc. destruct tok as [|c' tok'].
  - simpl. destruct l as [|c' l]; [done|]. simpl in Hl. by rewrite Hl.
  - change ((c' :: tok') ++ l) with (c' :: (tok' ++ l)).
    inversion Htok as [|? ? Hc' _]; subst. rewrite Hc'.
    change (c' :: (tok' ++ l)) with ((c' :: tok') ++ l).
    by rewrite IH.
Qed.

(** ** What a pass takes from a stream of tokens *)

(** How a pass over tokens ends: the tokens ran out, a limit refused
    the next token, or the next token is the -E string. *)
Inductive verdict := VEnd | VLeft | VStop.

Section Feed.

(** The bytes a token accounts for, the byte and entry limits and
    the -E string. *)
Variable cost : list byte -> Z.
Variables lim n : Z.
Variable E : option (list byte).

Definition full (e : Z) : bool := negb (n =? 0)%Z && (e >=? n)%Z.
Definition fits (b : Z) (w : list byte) : bool :=
  (lim =? 0)%Z || (b + cost w <? lim)%Z.

(** The tokens taken from [W], starting with [e] entries and [b]
    bytes, and the reason for stopping. *)
Fixpoint feed (e b : Z) (W : list (list byte)) : list (list byte) * verdict :=
  match W with
  | [] => ([], VEnd)
  | w :: r =>
      if full e || negb (fits b w) then ([], VLeft)
      else if bool_decide (E = Some w) then ([], VStop)
      else let '(T, v) := feed (e + 1)%Z (b + cost w)%Z r in (w :: T, v)
  end.

Definition total_cost (T : list (list byte)) : Z :=
  foldr (fun w a => (cost w + a)%Z) 0%Z T.

Lemma feed_prefix e b W T v :
  feed e b W = (T, v) -> W = T ++ drop (length T) W.
Proof.
  revert e b T v. induction W as [|w r IH]; intros e b T v; simpl.
  - by intros [= <- <-].
  - destruct (full e || negb (fits b w)); [by intros [= <- <-]|].
    destruct (bool_decide (E = Some w)); [by intros [= <- <-]|].
    destruct (feed _ _ r) as [T' v'] eqn:Hf. intros [= <- <-].
    simpl. f_equal. by eapply IH.
Qed.

Lemma feed_end e b W T : feed e b W = (T, VEnd) -> T = W.
Proof.
  revert e b T. induction W as [|w r IH]; intros e b T; simpl.
  - by intros [= <-].
  - destruct (full e || negb (fits b w)); [done|].
    destruct (bool_decide (E = Some w)); [done|].
    destruct (feed _ _ r) as [T' v'] eqn:Hf. intros [= <- ->].
    f_equal. by eapply IH.
Qed.

Lemma feed_left_nonempty e b W T : feed e b W = (T, VLeft) -> drop (length T) W <> [].
Proof.
  revert e b T. induction W as [|w r IH]; intros e b T; simpl; [done|].
  destruct (full e || negb (fits b w)); [by intros [= <-]|].
  destruct (bool_decide (E = Some w)); [done|].
  destruct (feed _ _ r) as [T' v'] eqn:Hf. intros [= <- ->].
  simpl. by eapply IH.
Qed.

(** Taking tokens from two lines in a row is taking them from the
    two lines joined. *)
Lemma feed_app e b W1 W2 T1 :
  feed e b W1 = (T1, VEnd) ->
  feed e b (W1 ++ W2) =
    let '(T2, v) := feed (e + Z.of_nat (length T1))%Z (b + total_cost T1)%Z W2 in
    (T1 ++ T2, v).
Proof.
  revert e b T1. induction W1 as [|w r IH]; intros e b T1; simpl.
  - intros [= <-]. simpl. rewrite Z.add_0_r, Z.add_0_r.
    by destruct (feed e b W2).
  - destruct (full e || negb (fits b w)); [done|].
    destruct (bool_decide (E = Some w)); [done|].
    destruct (feed _ _ r) as [T' v'] eqn:Hf. intros [= <- ->].
    rewrite (IH _ _ _ Hf). simpl total_cost. simpl length.
    replace (e + 1 + Z.of_nat (length T'))%Z with (e + Z.of_nat (S (length T')))%Z by lia.
    replace (b + cost w + total_cost T')%Z with (b + (cost w + total_cost T'))%Z by lia.
    by destruct (feed _ _ W2).
Qed.

Lemma feed_left_app e b W1 W2 T v :
  feed e b W1 = (T, v) -> v <> VEnd -> feed e b (W1 ++ W2) = (T, v).
Proof.
  revert e b T. induction W1 as [|w r IH]; intros e b T; simpl.
  - by intros [= <- <-].
  - destruct (full e || negb (fits b w)); [done|].
    destruct (bool_decide (E = Some w)); [done|].
    destruct (feed _ _ r) as [T' v'] eqn:Hf. intros [= <- ->] Hv.
    by rewrite (IH _ _ _ Hf Hv).
Qed.

(** Once the entry limit is reached nothing more is taken. *)
Lemma feed_full e b W : full e = true -> W <> [] -> feed e b W = ([], VLeft).
Proof. intros He HW. destruct W as [|w r]; [done|]. simpl. by rewrite He. Qed.

(** The tokens taken do not contain the -E string. *)
Lemma feed_no_stop e b W T v :
  feed e b W = (T, v) -> Forall (fun w => E <> Some w) T.
Proof.
  revert e b T v. induction W as [|w r IH]; intros e b T v; simpl.
  - intros [= <- <-]. constructor.
  - destruct (full e || negb (fits b w)); [intros [= <- <-]; constructor|].
    destruct (bool_decide (E = Some w)) eqn:HE; [intros [= <- <-]; constructor|].
    destruct (feed _ _ r) as [T' v'] eqn:Hf. intros [= <- <-].
    constructor; [|by eapply IH]. by apply bool_decide_eq_false in HE.
Qed.



(** The byte limit bounds what is taken. *)
Lemma feed_bytes e b W T v :
  feed e b W = (T, v) -> (lim <> 0)%Z -> T <> [] ->
  (b + total_cost T < lim)%Z.
Proof.
  revert e b T v. induction W as [|w r IH]; intros e b T v; simpl.
  - by intros [= <- <-].
  - destruct (full e); simpl; [by intros [= <- <-]|].
    unfold fits at 1. destruct (Z.eqb_spec lim 0); [done|]. simpl.
    destruct (Z.ltb_spec (b + cost w) lim); simpl; [|by intros [= <- <-]].
    destruct (bool_decide (E = Some w)); [by intros [= <- <-]|].
    destruct (feed _ _ r) as [T' v'] eqn:Hf. intros [= <- <-] _ _.
    destruct T' as [|w' T'']; [unfold total_cost; simpl; lia|].
    specialize (IH _ _ _ _ Hf ltac:(done) ltac:(done)).
    unfold total_cost in *. simpl in *. lia.
Qed.

End Feed.

(** ** The loops of handle_entries *)

(** The leading whitespace of a text, and the rest. *)
Fixpoint span_space (aft : list byte) : list byte * list byte :=
  match aft with
  | c :: r =>
      if isspace c then let '(sp, k) := span_space r in (c :: sp, k)
      else ([], aft)
  | [] => ([], [])
  end.

(** The leading run of bytes that are neither NUL nor whitespace, and
    the rest. *)
Fixpoint span_token (aft : list byte) : list byte * list byte :=
  match aft with
  | c :: r =>
      if is_nul c || isspace c then ([], aft)
      else let '(t, k) := span_token r in (c :: t, k)
  | [] => ([], [])
  end.

Definition blank (fill : bool) (c : byte) : byte := if fill then x00 else c.

Lemma span_space_app aft sp k :
  span_space aft = (sp, k) ->
  aft = sp ++ k /\ Forall (fun c => isspace c = true) sp /\ isspace (hd x00 k) = false.
Proof.
  revert sp k. induction aft as [|c r IH]; intros sp k; simpl.
  - intros [= <- <-]. by repeat split.
  - destruct (isspace c) eqn:Hc.
    + destruct (span_space r) as [sp' k'] eqn:Hs. intros [= <- <-].
      destruct (IH _ _ eq_refl) as (-> & Hsp & Hk). repeat split; [|done].
      by constructor.
    + intros [= <- <-]. by repeat split.
Qed.

Lemma skip_space_spec fill bef aft sp k :
  span_space aft = (sp, k) ->
  skip_space fill bef aft = Cursor (rev (blank fill <$> sp) ++ bef) k.
Proof.
  revert bef sp k. induction aft as [|c r IH]; intros bef sp k; simpl.
  - by intros [= <- <-].
  - destruct (isspace c) eqn:Hc.
    + destruct (span_space r) as [sp' k'] eqn:Hs. intros [= <- <-].
      rewrite (IH _ _ _ eq_refl). simpl. by rewrite <- app_assoc.
    + by intros [= <- <-].
Qed.

Lemma span_token_app aft t k :
  span_token aft = (t, k) ->
  aft = t ++ k /\ Forall (fun c => isspace c = false) t /\ nul_free t
  /\ (is_nul (hd x00 k) || isspace (hd x00 k) = true).
Proof.
  revert t k. induction aft as [|c r IH]; intros t k; simpl.
  - intros [= <- <-]. repeat split; constructor.
  - destruct (is_nul c || isspace c) eqn:Hc.
    + intros [= <- <-]. repeat split; try constructor. done.
    + destruct (span_token r) as [t' k'] eqn:Hs. intros [= <- <-].
      apply orb_false_elim in Hc as [Hn Hc].
      destruct (IH _ _ eq_refl) as (-> & Ht & Hnf & Hk).
      repeat split; [by constructor|by constructor|done].
Qed.

(** The token loop accepts the run when the byte count stays below the
    limit for each of its bytes and for its terminator. *)
Lemma scan_token_spec lim b bef aft t k :
  span_token aft = (t, k) ->
  scan_token lim b bef aft =
    if (lim =? 0)%Z || (b + (Z.of_nat (length t) + 1) <? lim)%Z
    then ((b + (Z.of_nat (length t) + 1))%Z, Some (Cursor (rev t ++ bef) k))
    else ((if (b + 1 >=? lim)%Z then b + 1 else lim)%Z, None).
Proof.
  revert b bef t k. induction aft as [|c r IH]; intros b bef t k; simpl.
  - intros [= <- <-]. simpl length.
    destruct (Z.eqb_spec lim 0), (Z.geb_spec (b + 1) lim),
      (Z.ltb_spec (b + (Z.of_nat 0 + 1)) lim); simpl; try lia; done.
  - destruct (is_nul c || isspace c) eqn:Hc.
    + intros [= <- <-]. simpl length.
      destruct (Z.eqb_spec lim 0), (Z.geb_spec (b + 1) lim),
        (Z.ltb_spec (b + (Z.of_nat 0 + 1)) lim); simpl; try lia; done.
    + destruct (span_token r) as [t' k'] eqn:Hs. intros [= <- <-].
      rewrite (IH _ _ _ _ eq_refl). simpl length. simpl rev. rewrite <- app_assoc.
      replace (b + 1 + (Z.of_nat (length t') + 1))%Z
        with (b + (Z.of_nat (S (length t')) + 1))%Z by lia.
      destruct (Z.eqb_spec lim 0), (Z.geb_spec (b + 1) lim),
        (Z.ltb_spec (b + (Z.of_nat (S (length t')) + 1)) lim); simpl; try lia; try done.
      destruct (Z.geb_spec (b + 1 + 1) lim); [f_equal; lia|done].
Qed.

(** The words of a text, by its first run. *)
Lemma words_span aft sp k t k' :
  nul_free aft ->
  span_space aft = (sp, k) -> span_token k = (t, k') ->
  words aft = if bool_decide (k = []) then [] else t :: words k'.
Proof.
  intros Hnf Hs Ht.
  destruct (span_space_app _ _ _ Hs) as (-> & Hsp & Hk).
  rewrite words_spaces by done.
  destruct (span_token_app _ _ _ Ht) as (-> & Htok & Htnf & Hk').
  apply nul_free_app in Hnf as [_ Hnf]. apply nul_free_app in Hnf as [_ Hnf].
  destruct t as [|c t].
  - simpl in *. destruct k' as [|c k']; [done|].
    simpl in Hk, Hk'. inversion Hnf as [|? ? Hc _]; subst. rewrite Hc, Hk in Hk'. done.
  - rewrite bool_decide_eq_false_2 by done. apply words_token; [done|done|].
    destruct k' as [|c' k']; [done|]. simpl in *.
    inversion Hnf as [|? ? Hc' _]; subst. by rewrite Hc' in Hk'.
Qed.

Lemma strncmp_eq_token t k e :
  nul_free t -> length t = strlen e ->
  strncmp_eq (length t) (t ++ k) e = bool_decide (t = cstr e).
Proof.
  revert e. induction t as [|c t IH]; intros e Hnf Hlen; simpl.
  - destruct e as [|c' e]; simpl in *; [done|]. by destruct (is_nul c').
  - inversion Hnf as [|? ? Hc Hnf']; subst.
    destruct e as [|c' e]; simpl in Hlen; [done|].
    destruct (is_nul c') eqn:Hc'; [done|]. injection Hlen as Hlen.
    simpl. rewrite Hc'. destruct (Byte.eqb c c') eqn:Heq.
    + apply Byte.byte_dec_bl in Heq as ->. rewrite Hc', IH by done.
      apply bool_decide_ext. split; congruence.
    + apply Byte.eqb_false in Heq. symmetry. apply bool_decide_eq_false. congruence.
Qed.

Lemma matches_E_spec e bef t k :
  nul_free t ->
  matches_E e (Cursor bef (t ++ k)) (Cursor (rev t ++ bef) k)
  = bool_decide (Some (cstr e) = Some t).
Proof.
  intros Hnf. unfold matches_E, offset. simpl.
  rewrite length_app, length_rev.
  replace (length t + length bef - length bef) with (length t) by lia.
  destruct (Nat.eqb_spec (length t) (strlen e)) as [Hl|Hl]; simpl.
  - rewrite strncmp_eq_token by done. apply bool_decide_ext. split; congruence.
  - symmetry. apply bool_decide_eq_false. intros [= He]. apply Hl.
    by rewrite strlen_cstr, He.
Qed.

Lemma chop_S fuel tt blk c entry out :
  chop (S fuel) tt blk c entry out =
  if is_nul (deref c) then Ok (Hnull, tt, contents c, out)
  else
    let c := skip_space (bool_decide (entry <> None)) (before c) (after c) in
    if negb (TT.n tt =? 0)%Z && (TT.entries tt >=? TT.n tt)%Z
    then Ok (if is_nul (deref c) then Hone else Hleft (offset c),
             tt, contents c, out)
    else if is_nul (deref c) then Ok (Hnull, tt, contents c, out)
    else
      let save := c in
      let '(b, r) := scan_token (TT.s tt) (TT.bytes tt) (before c) (after c) in
      let tt := TT.set_bytes tt b in
      match r with
      | None => Ok (Hleft (offset save), tt, contents save, out)
      | Some c =>
          if match TT.E tt with
             | Some e => matches_E e save c
             | None => false
             end
          then Ok (Htwo, tt, contents c, out)
          else
            out ← store_entry entry out (TT.entries tt)
                    (LinePtr blk (offset save));
            chop fuel (TT.set_entries tt (TT.entries tt + 1)%Z) blk c entry out
      end.
Proof. reflexivity. Qed.

(** ** What one call of handle_entries does *)

(** The bytes a word accounts for in the whitespace branch. *)
Definition ws_cost (w : list byte) : Z := (Z.of_nat (length w) + 1)%Z.

(** The call left the settings alone. *)
Definition frame (tt tt' : TT.t) : Prop :=
  TT.s tt' = TT.s tt /\ TT.n tt' = TT.n tt /\ TT.E tt' = TT.E tt
  /\ TT.delim tt' = TT.delim tt /\ TT.tty tt' = TT.tty tt.

(** The vector has room for [k] more entries. *)
Definition room (entry : option nat) (out : vec) (e : Z) (k : nat) : Prop :=
  match entry with
  | None => True
  | Some base => base + Z.to_nat e + k <= length out
  end.

(** The vector after the call: the slots from [out + base + e] on hold
    pointers into line [blk], whose bytes are now [buf], to the tokens
    [T]; nothing else changed. *)
Definition stored (entry : option nat) (blk : nat) (out out' : vec) (e : Z)
    (buf : list byte) (T : list (list byte)) : Prop :=
  match entry with
  | None => out' = out
  | Some base =>
      exists offs,
        out' = take (base + Z.to_nat e) out
               ++ (Some ∘ LinePtr blk <$> offs)
               ++ drop (base + Z.to_nat e + length T) out
        /\ Forall2 (fun o t => cstr (drop o buf) = t) offs T
  end.

(** The result of the call against the verdict on the line's tokens. *)
Definition ret_ok (cost : list byte -> Z) (tt tt' : TT.t) (T : list (list byte))
    (v : verdict) (r : hret) (leftover : nat -> Prop) : Prop :=
  match v with
  | VEnd =>
      TT.bytes tt' = (TT.bytes tt + total_cost cost T)%Z
      /\ (r = Hnull \/ (r = Hone /\ full (TT.n tt) (TT.entries tt') = true))
  | VLeft => exists off, r = Hleft off /\ leftover off
  | VStop => r = Htwo
  end.

Lemma frame_refl tt : frame tt tt.
Proof. by repeat split. Qed.

Lemma rev_skip (f : byte -> byte) (sp bef k : list byte) :
  rev (rev (f <$> sp) ++ bef) ++ k = rev bef ++ ((f <$> sp) ++ k).
Proof. by rewrite rev_app_distr, rev_involutive, <- app_assoc. Qed.

Lemma blank_false (sp : list byte) : blank false <$> sp = sp.
Proof. induction sp as [|c sp IH]; [done|]. by rewrite fmap_cons, IH. Qed.

Lemma take_S_insert (out : vec) i x :
  i < length out -> take (S i) (<[i:=x]> out) = take i out ++ [x].
Proof.
  intros Hi. rewrite insert_take_drop by done.
  rewrite take_app, length_take, Nat.min_l by lia.
  rewrite take_take, Nat.min_r by lia.
  replace (S i - i) with 1 by lia. done.
Qed.

Lemma cstr_app_token t l : nul_free t -> cstr (t ++ l) = t ++ cstr l.
Proof. induction 1 as [|c t Hc _ IH]; simpl; [done|]. by rewrite Hc, IH. Qed.

Lemma fill_head (entry : option nat) (sp k l : list byte) :
  entry <> None -> sp ++ k <> [] ->
  isspace (hd x20 (sp ++ k)) = true -> isspace (hd x00 k) = false ->
  cstr ((blank (bool_decide (entry <> None)) <$> sp) ++ l) = [].
Proof.
  intros He Hne Hhd Hk. rewrite bool_decide_eq_true_2 by done.
  destruct sp as [|c sp]; [|done].
  simpl in *. destruct k; [done|]. simpl in *. congruence.
Qed.

Lemma store_entry_ok entry (out : vec) e p k :
  (0 <= e)%Z -> room entry out e (S k) ->
  exists out1, store_entry entry out e p = Ok out1
    /\ length out1 = length out
    /\ match entry with
       | None => out1 = out
       | Some base => out1 = <[(base + Z.to_nat e)%nat := Some p]> out
       end.
Proof.
  intros He Hroom. destruct entry as [base|]; simpl in *.
  - destruct (Z.leb_spec 0 e); [|lia].
    destruct (Nat.ltb_spec (base + Z.to_nat e) (length out)); [|lia].
    simpl. eexists. split; [done|]. by rewrite length_insert.
  - by eexists.
Qed.

(** The whitespace branch on a line without NUL bytes takes the words
    of the line that [feed] takes. *)
Lemma chop_spec fuel : forall tt blk bef aft entry out T v,
  nul_free aft -> length aft < fuel -> (0 <= TT.entries tt)%Z ->
  feed ws_cost (TT.s tt) (TT.n tt) (cstr <$> TT.E tt) (TT.entries tt) (TT.bytes tt)
    (words aft) = (T, v) ->
  room entry out (TT.entries tt) (length T) ->
  exists r tt' aft' out',
    chop fuel tt blk (Cursor bef aft) entry out = Ok (r, tt', rev bef ++ aft', out')
    /\ frame tt tt'
    /\ TT.entries tt' = (TT.entries tt + Z.of_nat (length T))%Z
    /\ length aft' = length aft
    /\ (entry = None -> aft' = aft)
    /\ (entry <> None -> isspace (hd x20 aft) = true -> cstr aft' = [])
    /\ ret_ok ws_cost tt tt' T v r
         (fun off => exists k, off = length bef + k /\ k <= length aft
                     /\ words (drop k aft) = drop (length T) (words aft))
    /\ stored entry blk out out' (TT.entries tt) (rev bef ++ aft') T.
Proof.
  induction fuel as [|fuel IH];
    intros tt blk bef aft entry out T v Hnf Hfuel He Hfeed Hroom; [lia|].
  assert (forall (o : vec), stored entry blk o o (TT.entries tt) (rev bef ++ []) []
                            /\ forall buf, stored entry blk o o (TT.entries tt) buf []) as Hst0.
  { intros o. split; [|intros buf]; (destruct entry as [base|]; simpl; [|done]);
      (exists []; split; [|constructor]); simpl; by rewrite Nat.add_0_r, take_drop. }
  rewrite chop_S. cbv zeta. unfold deref. cbn [before after].
  destruct (decide (aft = [])) as [->|Hne].
  { simpl in Hfeed. injection Hfeed as <- <-.
    exists Hnull, tt, [], out. unfold contents. cbn [before after].
    split_and!;
      [done|apply frame_refl|simpl; lia|done|done|done| |apply Hst0].
    split; [unfold total_cost; simpl; lia|by left]. }
  assert (is_nul (hd x00 aft) = false) as ->.
  { destruct aft; [done|]. by inversion Hnf. }
  destruct (span_space aft) as [sp k] eqn:Hsp.
  destruct (span_token k) as [t k'] eqn:Htk.
  rewrite (skip_space_spec _ _ _ _ _ Hsp). unfold offset, contents. cbn [before after].
  rewrite (words_span _ _ _ _ _ Hnf Hsp Htk) in Hfeed.
  pose proof (span_space_app _ _ _ Hsp) as (Haft & Hspall & Hk).
  pose proof (span_token_app _ _ _ Htk) as (Hkt & Htns & Htnf & Hk').
  assert (nul_free k) as Hnfk by (rewrite Haft in Hnf; by apply nul_free_app in Hnf as [_ ?]).
  assert (nul_free k') as Hnfk' by (rewrite Hkt in Hnfk; by apply nul_free_app in Hnfk as [_ ?]).
  assert (words k = words aft) as Hwk by (by rewrite Haft, words_spaces).
  assert (length aft = length sp + length k) as Hlen by (by rewrite Haft, length_app).
  set (fill := bool_decide (entry <> None)) in *.
  set (spz := blank fill <$> sp).
  assert (length spz = length sp) as Hspz by apply length_fmap.
  assert (forall l, rev (rev spz ++ bef) ++ l = rev bef ++ spz ++ l) as Hrs
    by (intros; apply rev_skip).
  assert (entry = None -> spz = sp) as Hspz0.
  { intros ->. subst spz fill. rewrite bool_decide_eq_false_2 by (by intros []).
    apply blank_false. }
  assert (forall l, entry <> None -> isspace (hd x20 aft) = true -> cstr (spz ++ l) = [])
    as Hhead.
  { intros l Hen Hhd. subst spz fill. rewrite Haft in Hhd, Hne. by eapply fill_head. }
  assert (forall l, length (spz ++ l) = length sp + length l) as Hlenz.
  { intros l. by rewrite length_app, Hspz. }
  assert (forall l, entry = None -> spz ++ l = sp ++ l) as Hcnt.
  { intros l Hen. by rewrite Hspz0. }
  change (negb (TT.n tt =? 0)%Z && (TT.entries tt >=? TT.n tt)%Z)
    with (full (TT.n tt) (TT.entries tt)).
  (* the pointer stands after the whitespace: the leftover, if any *)
  assert (exists k0, length (rev spz ++ bef) = length bef + k0 /\ k0 <= length aft
                     /\ words (drop k0 aft) = drop (@length (list byte) []) (words aft))
    as Hlo.
  { exists (length sp). rewrite length_app, length_rev, Hspz.
    split_and!; [lia|lia|]. rewrite <- Hwk. rewrite Haft at 1. by rewrite drop_app_length. }
  destruct (full (TT.n tt) (TT.entries tt)) eqn:Hfull.
  { (* the entry limit is reached *)
    destruct (decide (k = [])) as [->|Hkne].
    - simpl in Hfeed. injection Hfeed as <- <-. cbn [hd is_nul].
      exists Hone, tt, (spz ++ []), out. rewrite Hrs.
      split_and!;
        [done|apply frame_refl|simpl; lia|rewrite Hlenz, Hlen; done
        |intros; rewrite Hcnt, Haft; done|intros; by apply Hhead| |apply Hst0].
      split; [unfold total_cost; simpl; lia|by right].
    - rewrite bool_decide_eq_false_2 in Hfeed by done.
      rewrite feed_full in Hfeed by done. injection Hfeed as <- <-.
      assert (is_nul (hd x00 k) = false) as ->.
      { destruct k; [done|]. by inversion Hnfk. }
      exists (Hleft (length (rev spz ++ bef))), tt, (spz ++ k), out. rewrite Hrs.
      split_and!;
        [done|apply frame_refl|simpl; lia|rewrite Hlenz, Hlen; done
        |intros; rewrite Hcnt, Haft; done|intros; by apply Hhead| |apply Hst0].
      simpl. eexists. split; [done|]. by apply Hlo. }
  destruct (decide (k = [])) as [->|Hkne].
  { (* only whitespace was left *)
    simpl in Hfeed. injection Hfeed as <- <-. cbn [hd is_nul].
    exists Hnull, tt, (spz ++ []), out. rewrite Hrs.
    split_and!;
      [done|apply frame_refl|simpl; lia|rewrite Hlenz, Hlen; done
      |intros; rewrite Hcnt, Haft; done|intros; by apply Hhead| |apply Hst0].
    split; [unfold total_cost; simpl; lia|by left]. }
  rewrite bool_decide_eq_false_2 in Hfeed by done.
  assert (is_nul (hd x00 k) = false) as ->.
  { destruct k; [done|]. by inversion Hnfk. }
  rewrite (scan_token_spec _ _ _ _ _ _ Htk).
  simpl in Hfeed. rewrite Hfull in Hfeed. simpl in Hfeed.
  unfold fits, ws_cost in Hfeed.
  destruct ((TT.s tt =? 0)%Z || (TT.bytes tt + (Z.of_nat (length t) + 1) <? TT.s tt)%Z)
    eqn:Hfits; simpl in Hfeed.
  2:{ (* the byte limit refuses the word *)
    injection Hfeed as <- <-.
    eexists (Hleft (length (rev spz ++ bef))), _, (spz ++ k), out. rewrite Hrs.
    split_and!;
      [done|by repeat split|simpl; lia|rewrite Hlenz, Hlen; done
      |intros; rewrite Hcnt, Haft; done|intros; by apply Hhead| |apply Hst0].
    simpl. eexists. split; [done|]. by apply Hlo. }
  pose proof (words_span _ _ _ _ _ Hnf Hsp Htk) as Hwa.
  rewrite bool_decide_eq_false_2 in Hwa by done.
  assert (t <> []) as Htne.
  { intros ->. simpl in Hkt. subst k'. destruct k as [|c k]; [done|].
    simpl in Hk, Hk'. inversion Hnfk as [|? ? Hc _]; subst. by rewrite Hc, Hk in Hk'. }
  assert (rev (rev t ++ rev spz ++ bef) = rev bef ++ spz ++ t) as Hrev.
  { by rewrite !rev_app_distr, !rev_involutive, <- app_assoc. }
  cbn [TT.E TT.set_bytes TT.entries].
  assert (match TT.E tt with
          | Some e => matches_E e (Cursor (rev spz ++ bef) k) (Cursor (rev t ++ rev spz ++ bef) k')
          | None => false
          end = bool_decide (cstr <$> TT.E tt = Some t)) as ->.
  { destruct (TT.E tt) as [e|]; simpl.
    - rewrite Hkt. by apply matches_E_spec.
    - done. }
  destruct (bool_decide (cstr <$> TT.E tt = Some t)) eqn:HE.
  { (* the -E string *)
    injection Hfeed as <- <-.
    eexists Htwo, _, (spz ++ t ++ k'), out. unfold contents. cbn [before after].
    rewrite Hrev, <- !app_assoc.
    split_and!;
      [done|by repeat split|simpl; lia|rewrite Hlenz, Hlen, Hkt; done
      |intros; rewrite Hcnt, Haft, Hkt; done|intros; by apply Hhead|done|apply Hst0]. }
  (* the word is taken *)
  destruct (feed _ _ _ _ _ _ (words k')) as [T' v'] eqn:Hfeed'.
  injection Hfeed as <- <-. simpl length in *.
  destruct (store_entry_ok entry out (TT.entries tt) (LinePtr blk (length (rev spz ++ bef)))
              (length T') He Hroom) as (out1 & -> & Hout1len & Hout1).
  change (mbind ?f (Ok ?x)) with (f x). cbv beta.
  set (tt1 := TT.set_entries _ _).
  destruct (IH tt1 blk (rev t ++ rev spz ++ bef) k' entry out1 T' v') as
    (r & tt' & aft' & out' & -> & Hframe & Hent & Hlen' & Hcount & Hfillhd & Hret & Hst).
  { done. }
  { rewrite Hlen, Hkt, length_app in Hfuel. destruct t; [done|]. simpl in Hfuel. lia. }
  { subst tt1. simpl. lia. }
  { subst tt1. simpl. rewrite <- Hfeed'. f_equal. }
  { subst tt1. simpl. destruct entry as [base|]; simpl in *; [|done]. lia. }
  exists r, tt', (spz ++ t ++ aft'), out'. rewrite Hrev, <- !app_assoc.
  assert (cstr aft' = [] \/ entry = None) as Haft'.
  { destruct entry as [base|]; [left|by right]. apply Hfillhd; [done|].
    destruct k' as [|c k']; [done|]. simpl in *.
    inversion Hnfk' as [|? ? Hc _]; subst. by rewrite Hc in Hk'. }
  split_and!.
  - done.
  - destruct Hframe as (?&?&?&?&?). subst tt1. simpl in *. by repeat split.
  - rewrite Hent. subst tt1. simpl. lia.
  - rewrite Hlenz, length_app, Hlen', Hlen, Hkt, length_app. lia.
  - intros Hen. rewrite Hcnt, Hcount by done. by rewrite Haft, Hkt.
  - intros. by apply Hhead.
  - destruct Hframe as (?&Hn&?&?&?). subst tt1. simpl in *.
    destruct v'; simpl in *.
    + destruct Hret as [Hb Hr]. split.
      * rewrite Hb. unfold total_cost, ws_cost. simpl. lia.
      * destruct Hr as [->|[-> Hf]]; [by left|by right].
    + destruct Hret as (off & -> & k0 & -> & Hk0 & Hw).
      eexists. split; [done|]. exists (length sp + length t + k0).
      rewrite !length_app, !length_rev, Hspz. split_and!; [lia|..].
      * rewrite Hlen, Hkt, length_app. lia.
      * rewrite Hwa. cbn [drop]. rewrite <- Hw, Haft, Hkt.
        rewrite drop_app_ge by lia. rewrite drop_app_ge by lia.
        by replace (length sp + length t + k0 - length sp - length t) with k0 by lia.
    + done.
  - destruct entry as [base|]; simpl in *; [|by subst].
    destruct Hst as (offs & -> & Hoffs). subst out1.
    exists (length (rev spz ++ bef) :: offs). split.
    + replace (Z.to_nat (TT.entries tt + 1)) with (S (Z.to_nat (TT.entries tt))) by lia.
      rewrite Nat.add_succ_r. rewrite take_S_insert by lia.
      rewrite drop_insert_lt by lia.
      rewrite <- app_assoc. rewrite Nat.add_succ_r. done.
    + constructor.
      * rewrite length_app, length_rev, Hspz.
        replace (rev bef ++ spz ++ t ++ aft') with ((rev bef ++ spz) ++ t ++ aft')
          by (by rewrite <- app_assoc).
        rewrite drop_app_length' by (rewrite length_app, length_rev; lia).
        rewrite cstr_app_token by done.
        destruct Haft' as [->|?]; [|done]. by rewrite app_nil_r.
      * by rewrite Hrev, <- !app_assoc in Hoffs.
Qed.

(** ** One call, in either mode *)

Section Calls.

Variable sizeof_charp : Z.

(** The bytes a token accounts for. *)
Definition token_cost (null : bool) (w : list byte) : Z :=
  if null then (sizeof_charp + Z.of_nat (length w) + 1)%Z else ws_cost w.

(** The -E string as far as a pass looks at it. *)
Definition stop_string (null : bool) (tt : TT.t) : option (list byte) :=
  if null then None else cstr <$> TT.E tt.

(** Lines of text hold no NUL byte. *)
Definition ok_line (null : bool) (line : list byte) : Prop :=
  null = true \/ nul_free line.

(** What a pass in the state [tt] takes from the tokens [W]. *)
Definition feed_tt (tt : TT.t) (W : list (list byte)) : list (list byte) * verdict :=
  let null := is_nul (TT.delim tt) in
  feed (token_cost null) (TT.s tt) (TT.n tt) (stop_string null tt)
    (TT.entries tt) (TT.bytes tt) W.

Lemma handle_entries_spec tt blk line entry out T v :
  let null := is_nul (TT.delim tt) in
  ok_line null line -> (0 <= TT.entries tt)%Z ->
  feed_tt tt (line_tokens null line) = (T, v) ->
  room entry out (TT.entries tt) (length T) ->
  exists r tt' line' out',
    handle_entries sizeof_charp tt blk line entry out = Ok (r, tt', line', out')
    /\ frame tt tt'
    /\ TT.entries tt' = (TT.entries tt + Z.of_nat (length T))%Z
    /\ length line' = length line
    /\ (entry = None -> line' = line)
    /\ ret_ok (token_cost null) tt tt' T v r
         (fun off =>
            let d := cstr (drop off line) in
            line_tokens null d = drop (length T) (line_tokens null line)
            /\ ok_line null d)
    /\ stored entry blk out out' (TT.entries tt) line' T.
Proof.
  intros null Hok He Hfeed Hroom. unfold handle_entries, feed_tt in *.
  fold null in Hfeed |- *. destruct null eqn:Hmode; cbn [negb].
  - (* -0: the line is one token *)
    cbn [line_tokens stop_string token_cost feed] in Hfeed.
    cbn [TT.s TT.n TT.bytes TT.entries TT.set_bytes].
    rewrite strlen_cstr.
    unfold full, fits in Hfeed.
    assert (negb (TT.s tt =? 0)%Z
            && (TT.bytes tt + (sizeof_charp + Z.of_nat (length (cstr line)) + 1) >=? TT.s tt)%Z
            = negb ((TT.s tt =? 0)%Z
                    || (TT.bytes tt + (sizeof_charp + Z.of_nat (length (cstr line)) + 1)
                        <? TT.s tt)%Z)) as Hb.
    { destruct (Z.eqb_spec (TT.s tt) 0); [done|]. simpl.
      destruct (Z.geb_spec (TT.bytes tt + (sizeof_charp + Z.of_nat (length (cstr line)) + 1))
                  (TT.s tt)), (Z.ltb_spec (TT.bytes tt + (sizeof_charp + Z.of_nat (length (cstr line)) + 1))
                  (TT.s tt)); try lia; done. }
    rewrite Hb.
    assert (forall (o : vec) buf, stored entry blk o o (TT.entries tt) buf []) as Hst0.
    { intros o buf. destruct entry as [base|]; simpl; [|done].
      exists []; split; [|constructor]; simpl; by rewrite Nat.add_0_r, take_drop. }
    assert (line_tokens true (cstr (drop 0 line)) = drop 0 (line_tokens true line)
            /\ ok_line true (cstr (drop 0 line))) as Hlo.
    { split; [|by left]. simpl. by rewrite cstr_idemp. }
    destruct (negb ((TT.s tt =? 0)%Z || _)) eqn:Hfit.
    + rewrite orb_true_r in Hfeed. injection Hfeed as <- <-.
      eexists (Hleft 0), _, line, out.
      split_and!; [done|by repeat split|simpl; lia|done|done| |apply Hst0].
      eexists. split; [done|]. apply Hlo.
    + rewrite orb_false_r in Hfeed.
      destruct (negb (TT.n tt =? 0)%Z && (TT.entries tt >=? TT.n tt)%Z) eqn:Hfull.
      * injection Hfeed as <- <-.
        eexists (Hleft 0), _, line, out.
        split_and!; [done|by repeat split|simpl; lia|done|done| |apply Hst0].
        eexists. split; [done|]. apply Hlo.
      * rewrite bool_decide_eq_false_2 in Hfeed by done. injection Hfeed as <- <-.
        simpl length in *.
        destruct (store_entry_ok entry out (TT.entries tt) (LinePtr blk 0) 0 He Hroom)
          as (out1 & -> & Hout1len & Hout1).
        change (mbind ?f (Ok ?x)) with (f x). cbv beta.
        eexists Hnull, _, line, out1.
        split_and!; [done|by repeat split|simpl; lia|done|done| | ].
        -- split; [|by left]. unfold total_cost. simpl. lia.
        -- destruct entry as [base|]; simpl in *; [|done]. subst out1.
           exists [0]. split; [|by repeat constructor].
           rewrite insert_take_drop by lia. simpl. do 3 f_equal. lia.
  - (* whitespace *)
    destruct Hok as [?|Hnf]; [done|].
    cbn [line_tokens stop_string token_cost] in Hfeed.
    destruct (chop_spec (S (length line)) tt blk [] line entry out T v)
      as (r & tt' & line' & out' & -> & Hframe & Hent & Hlen & Hcount & _ & Hret & Hst);
      [done|lia|done|done|done|].
    exists r, tt', line', out'. simpl rev. simpl app in *.
    split_and!; try done.
    destruct v; simpl in *; [done| |done].
    destruct Hret as (off & -> & k & -> & Hk & Hw).
    eexists. split; [done|]. simpl.
    rewrite nul_free_cstr by (by apply nul_free_drop).
    split; [done|]. right. by apply nul_free_drop.
Qed.

End Calls.

(** ** The two passes over the pending lines *)

Section Passes.

Variable sizeof_charp : Z.

Abbreviation null_of tt := (is_nul (TT.delim tt)).

(** The tokens of a sequence of lines. *)
Definition lines_tokens (null : bool) (ls : list (list byte)) : list (list byte) :=
  concat (line_tokens null <$> ls).

(** The tokens still to come: those of the data left over and those of
    the lines not yet read. *)
Definition pending (null : bool) (data : option (list byte))
    (unread : list (list byte)) : list (list byte) :=
  match data with
  | Some d => line_tokens null d ++ lines_tokens null unread
  | None => lines_tokens null unread
  end.

(** The globals after the tokens [T] were taken. *)
Definition advance (tt : TT.t) (T : list (list byte)) : TT.t :=
  TT.set_bytes
    (TT.set_entries tt (TT.entries tt + Z.of_nat (length T))%Z)
    (TT.bytes tt + total_cost (token_cost sizeof_charp (null_of tt)) T)%Z.

(** A pass starting in the state [tt] over the lines [ls] takes the
    tokens [T]: all the tokens of each line but the last, and of the
    last what the limits and the -E string allow. *)
Inductive takes : TT.t -> list (list byte) -> list (list byte) -> Prop :=
| takes_nil tt : takes tt [] []
| takes_cons tt l ls T1 v T2 :
    feed_tt sizeof_charp tt (line_tokens (null_of tt) l) = (T1, v) ->
    (ls <> [] -> v = VEnd) ->
    takes (advance tt T1) ls T2 ->
    takes tt (l :: ls) (T1 ++ T2).

Lemma takes_one tt l T v :
  feed_tt sizeof_charp tt (line_tokens (null_of tt) l) = (T, v) -> takes tt [l] T.
Proof.
  intros Hf. rewrite <- (app_nil_r T). eapply takes_cons; [by apply Hf|done|constructor].
Qed.

Lemma TT_eq (a b : TT.t) :
  frame a b -> TT.entries b = TT.entries a -> TT.bytes b = TT.bytes a -> b = a.
Proof.
  destruct a, b. unfold frame. simpl. intros (?&?&?&?&?) ? ?. by subst.
Qed.

Lemma advanced tt tt' T r left :
  frame tt tt' ->
  TT.entries tt' = (TT.entries tt + Z.of_nat (length T))%Z ->
  ret_ok (token_cost sizeof_charp (null_of tt)) tt tt' T VEnd r left ->
  tt' = advance tt T.
Proof.
  intros Hf He [Hb _]. apply TT_eq.
  - destruct Hf as (?&?&?&?&?). by repeat split.
  - done.
  - done.
Qed.

Lemma feed_tt_advance tt T W :
  feed_tt sizeof_charp (advance tt T) W
  = feed (token_cost sizeof_charp (null_of tt)) (TT.s tt) (TT.n tt)
      (stop_string (null_of tt) tt)
      (TT.entries tt + Z.of_nat (length T))%Z
      (TT.bytes tt + total_cost (token_cost sizeof_charp (null_of tt)) T)%Z W.
Proof. by destruct tt. Qed.

Lemma lines_tokens_cons null l ls :
  lines_tokens null (l :: ls) = line_tokens null l ++ lines_tokens null ls.
Proof. done. Qed.

(** The counting pass. *)
Lemma read_input_spec unread : forall tt dlist done T v,
  let null := null_of tt in
  Forall (ok_line null) unread -> (0 <= TT.entries tt)%Z ->
  feed_tt sizeof_charp tt (lines_tokens null unread) = (T, v) ->
  exists tt' taken data' done' unread',
    read_input sizeof_charp tt dlist done unread
      = Ok (tt', dlist ++ taken, data', done', unread')
    /\ frame tt tt'
    /\ TT.entries tt' = (TT.entries tt + Z.of_nat (length T))%Z
    /\ takes tt taken T
    /\ Forall (ok_line null) taken
    /\ Forall (ok_line null) unread'
    /\ match v with
       | VLeft =>
           done' = done
           /\ pending null data' unread' = drop (length T) (lines_tokens null unread)
           /\ match data' with
              | Some d => ok_line null d
              | None => full (TT.n tt) (TT.entries tt') = true
              end
       | VStop => done' = (done + 1)%Z /\ data' = None
       | VEnd =>
           data' = None
           /\ (done' = (done + 1)%Z
               \/ (done' = done /\ lines_tokens null unread' = []
                   /\ full (TT.n tt) (TT.entries tt') = true
                   /\ length unread' < length unread))
       end.
Proof.
  induction unread as [|line rest IH]; intros tt dlist done T v null Hok He Hfeed.
  { simpl in Hfeed. injection Hfeed as <- <-. cbn [read_input].
    exists tt, [], None, (done + 1)%Z, []. rewrite app_nil_r.
    split_and!; [done|apply frame_refl|simpl; lia|constructor|done|done|done|by left]. }
  inversion Hok as [|? ? Hline Hrest]; subst.
  rewrite lines_tokens_cons in Hfeed.
  destruct (feed_tt sizeof_charp tt (line_tokens null line)) as [T1 v1] eqn:Hf1.
  destruct (handle_entries_spec sizeof_charp tt (length (dlist ++ [line]) - 1) line None []
              T1 v1 Hline He Hf1 I)
    as (r & tt1 & line' & out' & Hhe & Hframe & Hent & _ & _ & Hret & _).
  cbn [read_input]. rewrite Hhe. change (mbind ?f (Ok ?x)) with (f x). cbv beta iota.
  assert (null_of tt1 = null) as Hnull1 by (destruct Hframe as (?&?&?&Hd&?); subst null; by rewrite Hd).
  assert (TT.n tt1 = TT.n tt) as Hn1 by (by destruct Hframe as (?&?&?&?&?)).
  destruct v1.
  - (* the line is used up *)
    pose proof (advanced _ _ _ _ _ Hframe Hent Hret) as Htt1.
    pose proof (feed_end _ _ _ _ _ _ _ _ Hf1) as HT1.
    unfold feed_tt in Hf1, Hfeed. fold null in Hf1, Hfeed.
    rewrite (feed_app _ _ _ _ _ _ _ _ _ Hf1) in Hfeed.
    destruct Hret as [_ [->|[-> Hfull]]]; cbn [after_count].
    + destruct (feed _ _ _ _ _ _ (lines_tokens null rest)) as [T2 v2] eqn:Hf2.
      injection Hfeed as <- <-.
      destruct (IH tt1 (dlist ++ [line]) done T2 v2) as
        (tt' & taken & data' & done' & unread' & -> & Hframe' & Hent' & Htakes
         & Hokt & Hoku & Hv).
      { by rewrite Hnull1. }
      { lia. }
      { rewrite Hnull1, Htt1, feed_tt_advance. by fold null. }
      exists tt', (line :: taken), data', done', unread'.
      rewrite Hnull1 in *.
      split_and!.
      * by rewrite <- app_assoc.
      * destruct Hframe as (?&?&?&?&?), Hframe' as (?&?&?&?&?). repeat split; congruence.
      * rewrite Hent', Hent, length_app. lia.
      * eapply takes_cons; [by apply Hf1| done |by rewrite <- Htt1].
      * by constructor.
      * done.
      * rewrite Hn1 in Hv. destruct v2.
        -- destruct Hv as [-> Hv]. split; [done|].
           destruct Hv as [?|(?&?&?&?)]; [by left|right]. simpl. split_and!; try done. lia.
        -- destruct Hv as (-> & Hp & Hd). split_and!; [done| |done].
           rewrite Hp, lines_tokens_cons, <- HT1, length_app, drop_app_ge by lia.
           f_equal. lia.
        -- done.
    + (* and the entry limit is reached *)
      exists tt1, [line], None, done, rest.
      assert (T = T1 /\ v = (if bool_decide (lines_tokens null rest = []) then VEnd else VLeft))
        as [-> ->].
      { destruct (lines_tokens null rest) as [|w W2] eqn:HW2.
        - simpl in Hfeed. injection Hfeed as <- <-. by rewrite app_nil_r.
        - rewrite feed_full in Hfeed; [|by rewrite <- Hent|done].
          injection Hfeed as <- <-. by rewrite app_nil_r. }
      split_and!; [done|done|done| | |done|].
      * by eapply takes_one.
      * constructor; [done|constructor].
      * case_bool_decide as HW2.
        -- split; [done|]. right. split_and!; [done|done|done|simpl; lia].
        -- split_and!; [done| |done]. simpl pending.
           by rewrite lines_tokens_cons, <- HT1, drop_app_length.
  - (* a limit refuses a token of the line *)
    unfold feed_tt in Hf1, Hfeed. fold null in Hf1, Hfeed.
    rewrite (feed_left_app _ _ _ _ _ _ _ _ _ _ Hf1) in Hfeed by done.
    injection Hfeed as <- <-.
    destruct Hret as (off & -> & Hlo & Hokd). cbn [after_count].
    exists tt1, [line], (Some (cstr (drop off line))), done, rest.
    split_and!; [done|done|done| | |done|done| |done].
    + by eapply takes_one.
    + constructor; [done|constructor].
    + cbn [pending]. fold null in Hlo. cbv zeta in Hlo. rewrite Hlo, lines_tokens_cons.
      pose proof (feed_prefix _ _ _ _ _ _ _ _ _ Hf1) as Hpre.
      rewrite drop_app_le; [done|].
      rewrite Hpre at 1. rewrite length_app. lia.
  - (* the -E string *)
    unfold feed_tt in Hf1, Hfeed. fold null in Hf1, Hfeed.
    rewrite (feed_left_app _ _ _ _ _ _ _ _ _ _ Hf1) in Hfeed by done.
    injection Hfeed as <- <-.
    simpl in Hret. subst r. cbn [after_count].
    exists tt1, [line], None, (done + 1)%Z, rest.
    split_and!; [done|done|done| | |done|done|done].
    + by eapply takes_one.
    + constructor; [done|constructor].
Qed.

Lemma splice (out : vec) k (P1 P2 : vec) m2 :
  k + length P1 + m2 <= length out ->
  take (k + length P1) (take k out ++ P1 ++ drop (k + length P1) out)
  ++ P2 ++ drop (k + length P1 + m2) (take k out ++ P1 ++ drop (k + length P1) out)
  = take k out ++ (P1 ++ P2) ++ drop (k + (length P1 + m2)) out.
Proof.
  intros Hlen.
  assert (length (take k out) = k) as Hk by (rewrite length_take; lia).
  rewrite (app_assoc (take k out) P1).
  rewrite take_app_length' by (rewrite length_app; lia).
  rewrite drop_app_ge by (rewrite length_app; lia).
  rewrite length_app, Hk, drop_drop, <- !app_assoc.
  do 4 f_equal. lia.
Qed.

(** The filling pass: the vector receives pointers to the tokens the
    counting pass took, in order. *)
Lemma fill_pass_spec tt lines T :
  takes tt lines T ->
  forall i base out,
  Forall (ok_line (null_of tt)) lines -> (0 <= TT.entries tt)%Z ->
  room (Some base) out (TT.entries tt) (length T) ->
  exists tt' lines' ptrs,
    fill_pass sizeof_charp tt i lines base out
      = Ok (tt', lines',
            take (base + Z.to_nat (TT.entries tt)) out
            ++ (Some <$> ptrs)
            ++ drop (base + Z.to_nat (TT.entries tt) + length T) out)
    /\ frame tt tt'
    /\ length lines' = length lines
    /\ Forall2 (fun p t => exists j off,
                  p = LinePtr (i + j) off /\ cstr (drop off (nth j lines' [])) = t)
         ptrs T.
Proof.
  induction 1 as [tt|tt l ls T1 v T2 Hf Hv Htakes IH]; intros i base out Hok He Hroom.
  { exists tt, [], []. simpl. split_and!; [|apply frame_refl|done|constructor].
    by rewrite Nat.add_0_r, take_drop. }
  inversion Hok as [|? ? Hl Hls]; subst. simpl in Hroom. rewrite length_app in Hroom.
  destruct (handle_entries_spec sizeof_charp tt i l (Some base) out T1 v Hl He Hf)
    as (r & tt1 & l' & out1 & Hhe & Hframe & Hent & Hlen & _ & Hret & Hst).
  { simpl. lia. }
  cbn [fill_pass]. rewrite Hhe. change (mbind ?f (Ok ?x)) with (f x). cbv beta iota.
  destruct Hst as (offs & -> & Hoffs).
  pose proof (Forall2_length _ _ _ Hoffs) as Hoffslen.
  set (P1 := Some ∘ LinePtr i <$> offs).
  assert (length P1 = length T1) as HP1 by (subst P1; by rewrite length_fmap).
  assert (forall ls0, Forall2 (fun p t => exists j off,
                     p = LinePtr (i + j) off /\ cstr (drop off (nth j (l' :: ls0) [])) = t)
            (LinePtr i <$> offs) T1) as Hptr1.
  { intros ls0. apply Forall2_fmap_l. eapply Forall2_impl; [apply Hoffs|].
    intros o t Ht. exists 0, o. by rewrite Nat.add_0_r. }
  destruct (decide (ls = [])) as [->|Hne].
  - inversion Htakes; subst. cbn [fill_pass].
    change (mbind ?f (Ok ?x)) with (f x). cbv beta iota.
    exists tt1, [l'], (LinePtr i <$> offs). rewrite app_nil_r.
    split_and!; [|done|done|done].
    by rewrite <- list_fmap_compose.
  - specialize (Hv Hne). subst v.
    pose proof (advanced _ _ _ _ _ Hframe Hent Hret) as ->.
    destruct (IH (S i) base (take (base + Z.to_nat (TT.entries tt)) out ++ P1
                             ++ drop (base + Z.to_nat (TT.entries tt) + length T1) out))
      as (tt' & ls' & ptrs2 & -> & Hframe2 & Hlen2 & Hptr2).
    { by destruct tt. }
    { simpl. lia. }
    { simpl. rewrite !length_app, length_take, length_drop, HP1. lia. }
    change (mbind ?f (Ok ?x)) with (f x). cbv beta iota.
    exists tt', (l' :: ls'), ((LinePtr i <$> offs) ++ ptrs2).
    split_and!.
    + do 2 f_equal. cbn [advance TT.entries TT.set_bytes TT.set_entries].
      replace (Z.to_nat (TT.entries tt + Z.of_nat (length T1)))
        with (Z.to_nat (TT.entries tt) + length T1) by lia.
      rewrite Nat.add_assoc, <- HP1.
      rewrite splice by (rewrite HP1; lia).
      rewrite fmap_app, length_app, HP1. subst P1. by rewrite <- list_fmap_compose.
    + destruct Hframe2 as (?&?&?&?&?). destruct tt. simpl in *. by repeat split.
    + simpl. by rewrite Hlen2.
    + apply Forall2_app.
      * apply Hptr1.
      * eapply Forall2_impl; [apply Hptr2|]. intros p t (j & off & -> & Ht).
        exists (S j), off. split; [|done]. f_equal. lia.
Qed.

(** What [exec] reads from a vector of pointers ending in NULL. *)
Lemma argv_of_somes args lines ptrs rest :
  argv_of args lines ((Some <$> ptrs) ++ rest)
  = r ← argv_of args lines rest; Ok ((string_at args lines <$> ptrs) ++ r).
Proof.
  induction ptrs as [|p ptrs IH].
  - simpl. by destruct (argv_of args lines rest).
  - rewrite fmap_cons. cbn [app argv_of]. rewrite IH.
    by destruct (argv_of args lines rest).
Qed.

Lemma string_at_args (args lines : list (list byte)) :
  string_at args lines <$> (ArgStr <$> seq 0 (length args)) = cstr <$> args.
Proof.
  rewrite <- list_fmap_compose.
  induction args as [|a args IH] using rev_ind; [done|].
  rewrite length_app, Nat.add_1_r, seq_S, !fmap_app. simpl. f_equal.
  - rewrite <- IH. apply list_fmap_ext. intros j x Hj.
    apply lookup_seq in Hj as [-> Hj]. simpl. by rewrite app_nth1.
  - by rewrite nth_middle.
Qed.

Lemma alloc_out_spec entries k :
  alloc_out entries (Z.of_nat k)
  = (Some <$> (ArgStr <$> seq 0 entries)) ++ replicate (k + 1) None.
Proof.
  unfold alloc_out. rewrite list_fmap_compose, drop_replicate. do 2 f_equal. lia.
Qed.

End Passes.

(** ** The loop through exec chunks *)

Section Runs.

Variable sizeof_charp : Z.
Variable toys : toy_context.
Variable w : world.

(** The locals [entries] and [bytes] computed before the loop. *)
Variable bytes : Z.
Let entries : nat := length (optargs toys).

(** The settings the loop runs with: the mode, and [TT.s], [TT.n] and
    [TT.E] as it finds them. *)
Variable null : bool.
Variables lim n : Z.
Variable E : option (list byte).

Definition settings (tt : TT.t) : Prop :=
  is_nul (TT.delim tt) = null /\ TT.s tt = lim /\ TT.n tt = n /\ TT.E tt = E.

(** What one command line takes from the tokens to come. *)
Definition batch_feed (W : list (list byte)) : list (list byte) * verdict :=
  feed (token_cost sizeof_charp null) lim n (if null then None else cstr <$> E)
    0 bytes W.

(** The command lines built from a stream of tokens, and how the run
    ends.  After a command line that ends a line of input with the
    entry limit reached, an empty one may follow. *)
Inductive batching : list (list byte) -> list (list (list byte)) -> outcome -> Prop :=
| batching_end W T :
    batch_feed W = (T, VEnd) -> batching W [T] Returned
| batching_end_extra W T :
    batch_feed W = (T, VEnd) -> full n (Z.of_nat (length T)) = true ->
    batching W [T; []] Returned
| batching_stop W T :
    batch_feed W = (T, VStop) -> batching W [T] Returned
| batching_fatal W :
    batch_feed W = ([], VLeft) -> batching W [] (ErrorExit "argument too long")
| batching_more W T Bs o :
    batch_feed W = (T, VLeft) -> T <> [] ->
    batching (drop (length T) W) Bs o ->
    batching W (T :: Bs) o.

(** The event of command line number [k], built from the tokens [T]. *)
Definition event_of (k : nat) (T : list (list byte)) : event :=
  let argv := (cstr <$> optargs toys) ++ T in
  if (if FLAG_p toys then fyesno w k else true)
  then Run argv (FLAG_o toys) (decode_status (wait_status w k argv))
  else Declined argv.

Fixpoint events_of (k : nat) (Bs : list (list (list byte))) : list event :=
  match Bs with
  | [] => []
  | T :: Bs => event_of k T :: events_of (S k) Bs
  end.

(** The command lines that are run: with -r, not the empty ones. *)
Definition kept (Bs : list (list (list byte))) : list (list (list byte)) :=
  if FLAG_r toys then filter (fun T => T <> []) Bs else Bs.

Lemma batching_nil Bs o :
  (0 <= n)%Z -> batching [] Bs o -> Bs = [[]] /\ o = Returned.
Proof.
  intros Hn. inversion 1 as [W T Hf|W T Hf Hfull|W T Hf|W Hf|W T Bs' o' Hf]; subst;
    simpl in Hf; try done; injection Hf as <-; [done|].
  unfold full in Hfull. simpl in Hfull.
  destruct (Z.eqb_spec n 0), (Z.geb_spec (Z.of_nat 0) n); simpl in *; try done; lia.
Qed.

Definition fresh (tt : TT.t) : TT.t := TT.set_bytes (TT.set_entries tt 0) bytes.

Lemma batch_feed_fresh tt W :
  settings tt -> feed_tt sizeof_charp (fresh tt) W = batch_feed W.
Proof. intros (Hd & Hs & Hn & HE). unfold feed_tt, batch_feed, stop_string. simpl. by subst. Qed.

Lemma fresh_frame a b : frame (fresh a) b -> fresh b = fresh a.
Proof. destruct a, b. unfold frame, fresh. simpl. intros (?&?&?&?&?). by subst. Qed.

Lemma settings_frame a b : settings a -> frame (fresh a) b -> settings b.
Proof.
  destruct a, b. unfold frame, fresh, settings. simpl.
  intros (?&?&?&?) (?&?&?&?&?). by subst.
Qed.

Definition source (data : option (list byte)) (unread : list (list byte))
  : list (list byte) :=
  match data with Some d => d :: unread | None => unread end.

Lemma count_pass_source tt dl data dn unread :
  count_pass sizeof_charp tt dl data dn unread
  = read_input sizeof_charp tt dl dn (source data unread).
Proof. by destruct data. Qed.

Lemma pending_source data unread :
  pending null data unread = lines_tokens null (source data unread).
Proof. by destruct data. Qed.

(** The loop is over. *)
Lemma exec_chunks_exit fuel st :
  data st = None -> (done st <> 0)%Z ->
  exec_chunks sizeof_charp toys w (S fuel) entries bytes st = Ok ([], Returned).
Proof.
  intros Hd Hn. cbn [exec_chunks]. rewrite Hd.
  rewrite bool_decide_eq_false_2 by (by intros []).
  by destruct (Z.eqb_spec (done st) 0).
Qed.

(** No entries, and -r: [continue]. *)
Lemma exec_chunks_skip fuel st tt' taken data' done' unread' :
  bool_decide (data st <> None) || (done st =? 0)%Z = true ->
  count_pass sizeof_charp (fresh (tt st)) (dlist st) (data st) (done st) (unread st)
    = Ok (tt', taken, data', done', unread') ->
  TT.entries tt' = 0%Z -> FLAG_r toys = true ->
  exec_chunks sizeof_charp toys w (S fuel) entries bytes st
  = exec_chunks sizeof_charp toys w fuel entries bytes
      (Locals tt' taken data' done' unread' (built st)).
Proof.
  intros Hcond Hcount Hent Hr. cbn [exec_chunks]. unfold fresh in Hcount.
  rewrite Hcond, Hcount. change (mbind ?f (Ok ?x)) with (f x). cbv beta iota.
  by rewrite Hent, Hr.
Qed.

(** No entries, and data left over: the token cannot fit. *)
Lemma exec_chunks_fatal fuel st tt' taken d done' unread' :
  bool_decide (data st <> None) || (done st =? 0)%Z = true ->
  count_pass sizeof_charp (fresh (tt st)) (dlist st) (data st) (done st) (unread st)
    = Ok (tt', taken, Some d, done', unread') ->
  TT.entries tt' = 0%Z -> FLAG_r toys = false ->
  exec_chunks sizeof_charp toys w (S fuel) entries bytes st
  = Ok ([], ErrorExit "argument too long").
Proof.
  intros Hcond Hcount Hent Hr. cbn [exec_chunks]. unfold fresh in Hcount.
  rewrite Hcond, Hcount. change (mbind ?f (Ok ?x)) with (f x). cbv beta iota.
  by rewrite Hent, Hr.
Qed.

(** One command line built and run, then the rest of the loop. *)
Lemma exec_chunks_step st tt' taken data' done' unread' T :
  settings (tt st) ->
  bool_decide (data st <> None) || (done st =? 0)%Z = true ->
  dlist st = [] ->
  count_pass sizeof_charp (fresh (tt st)) (dlist st) (data st) (done st) (unread st)
    = Ok (tt', taken, data', done', unread') ->
  TT.entries tt' = Z.of_nat (length T) ->
  frame (fresh (tt st)) tt' ->
  takes sizeof_charp (fresh (tt st)) taken T ->
  Forall (ok_line null) taken ->
  (T = [] -> FLAG_r toys = false /\ data' = None) ->
  exists tt'',
    settings tt''
    /\ forall fuel,
       exec_chunks sizeof_charp toys w (S fuel) entries bytes st
       = '(evs, o) ← exec_chunks sizeof_charp toys w fuel entries bytes
                       (Locals tt'' [] data' done' unread' (S (built st)));
         Ok (event_of (built st) T :: evs, o).
Proof.
  intros Hset Hcond Hdl Hcount Hent Hframe Htakes Hok HT.
  assert (is_nul (TT.delim (fresh (tt st))) = null) as Hnull.
  { destruct Hset as (Hd&_). by destruct (tt st). }
  destruct (fill_pass_spec sizeof_charp _ _ _ Htakes 0 entries
              (alloc_out entries (TT.entries tt')))
    as (tt2 & lines' & ptrs & Hfill & Hframe2 & Hlen & Hptrs).
  { by rewrite Hnull. }
  { simpl. lia. }
  { simpl. rewrite Hent, alloc_out_spec, length_app, !length_fmap, length_seq, length_replicate. lia. }
  exists (if FLAG_p toys then TT.set_tty tt2 true else tt2). split.
  { pose proof (settings_frame _ _ Hset Hframe2) as (?&?&?&?).
    destruct (FLAG_p toys); by repeat split. }
  intros fuel.
  cbn [exec_chunks]. unfold fresh in Hcount. rewrite Hcond, Hcount.
  change (mbind ?f (Ok ?x)) with (f x). cbv beta iota.
  assert ((TT.entries tt' =? 0)%Z && FLAG_r toys = false) as ->.
  { destruct T as [|t T]; [by destruct (HT eq_refl) as [-> _]; rewrite andb_false_r|].
    rewrite Hent. simpl length. by destruct (Z.eqb_spec (Z.of_nat (S (length T))) 0); [lia|]. }
  assert (bool_decide (data' <> None) && (TT.entries tt' =? 0)%Z = false) as ->.
  { destruct T as [|t T].
    - destruct (HT eq_refl) as [_ ->]. by rewrite bool_decide_eq_false_2 by (by intros []).
    - rewrite Hent. simpl length.
      destruct (Z.eqb_spec (Z.of_nat (S (length T))) 0); [lia|]. by rewrite andb_false_r. }
  change (TT.set_bytes (TT.set_entries tt' 0) bytes) with (fresh tt').
  rewrite (fresh_frame _ _ Hframe).
  rewrite Hfill.
  change (mbind ?f (Ok ?x)) with (f x). cbv beta iota.
  cbn [fresh TT.entries TT.set_bytes TT.set_entries Z.to_nat]. rewrite Nat.add_0_r.
  rewrite Hent, alloc_out_spec.
  rewrite take_app_length' by (by rewrite !length_fmap, length_seq).
  rewrite drop_app_ge by (rewrite !length_fmap, length_seq; lia).
  rewrite !length_fmap, length_seq, drop_replicate.
  replace (length T + 1 - (entries + length T - entries)) with 1 by lia.
  rewrite argv_of_somes, argv_of_somes. simpl argv_of.
  change (mbind ?f (Ok ?x)) with (f x). cbv beta iota.
  rewrite app_nil_r. subst entries. rewrite string_at_args.
  assert (string_at (optargs toys) lines' <$> ptrs = T) as ->.
  { clear -Hptrs. induction Hptrs as [|p t ptrs T (j & off & -> & Ht) _ IH]; [done|].
    rewrite fmap_cons, IH. by rewrite <- Ht. }
  change (mbind ?f (Ok ?x)) with (f x). cbv beta iota.
  unfold event_of. reflexivity.
Qed.

Lemma kept_nil : kept [] = [].
Proof. unfold kept. by destruct (FLAG_r toys). Qed.

Lemma kept_cons T Bs : T <> [] -> kept (T :: Bs) = T :: kept Bs.
Proof.
  intros HT. unfold kept. destruct (FLAG_r toys); [|done].
  by rewrite filter_cons_True.
Qed.

Lemma kept_nil_batch : kept [[]] = if FLAG_r toys then [] else [[]].
Proof. unfold kept. by destruct (FLAG_r toys). Qed.

(** The last command line of a run: built, run unless it is empty and
    -r is given, and the loop is left. *)
Lemma exec_chunks_last st tt' taken done' unread' T :
  settings (tt st) ->
  bool_decide (data st <> None) || (done st =? 0)%Z = true ->
  dlist st = [] ->
  count_pass sizeof_charp (fresh (tt st)) (dlist st) (data st) (done st) (unread st)
    = Ok (tt', taken, None, done', unread') ->
  TT.entries tt' = Z.of_nat (length T) ->
  frame (fresh (tt st)) tt' ->
  takes sizeof_charp (fresh (tt st)) taken T ->
  Forall (ok_line null) taken ->
  (done' <> 0)%Z ->
  forall fuel, 2 <= fuel ->
    exec_chunks sizeof_charp toys w fuel entries bytes st
    = Ok (events_of (built st) (kept [T]), Returned).
Proof.
  intros Hset Hcond Hdl Hcount Hent Hframe Htakes Hok Hdone' fuel Hfuel.
  destruct fuel as [|[|fuel]]; [lia|lia|].
  destruct (decide (T = [] /\ FLAG_r toys = true)) as [[-> Hr]|Hno].
  - rewrite (exec_chunks_skip _ _ _ _ _ _ _ Hcond Hcount) by done.
    rewrite exec_chunks_exit by done. by rewrite kept_nil_batch, Hr.
  - destruct (exec_chunks_step st tt' taken None done' unread' T)
      as (tt'' & _ & ->); try done.
    { intros ->. split; [|done]. destruct (FLAG_r toys); [|done]. by destruct Hno. }
    rewrite exec_chunks_exit by done.
    change (mbind ?f (Ok ?x)) with (f x). cbv beta iota.
    destruct (decide (T = [])) as [->|HT].
    + rewrite kept_nil_batch. destruct (FLAG_r toys); [|done]. by destruct Hno.
    + by rewrite kept_cons, kept_nil.
Qed.

(** The run, against the command lines of the token stream. *)
Lemma run_spec m : forall st,
  length (pending null (data st) (unread st)) <= m ->
  settings (tt st) -> dlist st = [] -> done st = 0%Z -> (0 <= n)%Z ->
  Forall (ok_line null) (source (data st) (unread st)) ->
  exists Bs o,
    batching (pending null (data st) (unread st)) Bs o
    /\ ((FLAG_r toys = true -> o = Returned) ->
        exists fuel0, forall fuel, fuel0 <= fuel ->
          exec_chunks sizeof_charp toys w fuel entries bytes st
          = Ok (events_of (built st) (kept Bs), o)).
Proof.
  induction m as [m IH] using lt_wf_ind. intros st Hm Hset Hdl Hdone Hn Hok.
  set (W := pending null (data st) (unread st)) in *.
  destruct (batch_feed W) as [T v] eqn:Hfeed.
  assert (bool_decide (data st <> None) || (done st =? 0)%Z = true) as Hcond
    by (by rewrite Hdone, orb_true_r).
  assert (is_nul (TT.delim (fresh (tt st))) = null) as Hnull.
  { destruct Hset as (Hd&_). by destruct (tt st). }
  destruct (read_input_spec sizeof_charp (source (data st) (unread st))
              (fresh (tt st)) [] (done st) T v)
    as (tt' & taken & data' & done' & unread' & Hread & Hframe & Hent & Htakes
        & Hokt & Hoku & Hv).
  { by rewrite Hnull. }
  { by destruct (tt st). }
  { rewrite Hnull, <- pending_source, batch_feed_fresh; done. }
  rewrite Hnull in Hokt, Hoku, Hv. simpl app in Hread.
  assert (count_pass sizeof_charp (fresh (tt st)) (dlist st) (data st) (done st) (unread st)
          = Ok (tt', taken, data', done', unread')) as Hcount
    by (by rewrite count_pass_source, Hdl).
  assert (TT.entries tt' = Z.of_nat (length T)) as Hent'
    by (rewrite Hent; by destruct (tt st)).
  assert (TT.n (fresh (tt st)) = n) as Hnn.
  { destruct Hset as (_&_&Hx&_). by destruct (tt st). }
  rewrite Hnn, Hent' in Hv.
  assert (full n (Z.of_nat (length T)) = true -> T <> []) as Hfull_ne.
  { intros Hf ->. unfold full in Hf.
    destruct (Z.eqb_spec n 0), (Z.geb_spec (Z.of_nat (@length (list byte) [])) n);
      simpl in *; try done; lia. }
  destruct v.
  - destruct Hv as [-> [->|(-> & Hnil & Hfull & Hlt)]].
    + exists [T], Returned. split; [by apply batching_end|]. intros _. exists 2.
      eapply exec_chunks_last; try done. lia.
    + pose proof (Hfull_ne Hfull) as HT.
      pose proof (feed_end _ _ _ _ _ _ _ _ Hfeed) as HTW.
      exists [T; []], Returned. split; [by apply batching_end_extra|]. intros _.
      destruct (exec_chunks_step st tt' taken None (done st) unread' T)
        as (tt'' & Hset'' & Hstep); try done.
      destruct (IH 0) with (st := Locals tt'' [] None (done st) unread' (S (built st)))
        as (Bs' & o' & Hb' & Hrun'); simpl; try done.
      { rewrite <- HTW in Hm. destruct T; [done|]. simpl in Hm. lia. }
      { rewrite Hnil. simpl. lia. }
      simpl in Hb'. rewrite Hnil in Hb'. destruct (batching_nil _ _ Hn Hb') as [-> ->].
      destruct Hrun' as (fuel0 & Hrun'); [done|].
      exists (S fuel0). intros fuel Hfuel. destruct fuel as [|fuel]; [lia|].
      rewrite Hstep, Hrun' by lia.
      change (mbind ?f (Ok ?x)) with (f x). cbv beta iota.
      rewrite (kept_cons T) by exact HT. reflexivity.
  - destruct Hv as (-> & Hpend & Hdata).
    destruct (decide (T = [])) as [->|HT].
    + destruct data' as [d|]; [|by apply Hfull_ne in Hdata].
      exists [], (ErrorExit "argument too long"). split; [by apply batching_fatal|].
      intros Hr. destruct (FLAG_r toys) eqn:Hflag; [by specialize (Hr eq_refl)|].
      exists 1. intros fuel Hfuel. destruct fuel as [|fuel]; [lia|].
      rewrite (exec_chunks_fatal _ _ _ _ _ _ _ Hcond Hcount) by done.
      by rewrite kept_nil.
    + destruct (exec_chunks_step st tt' taken data' (done st) unread' T)
        as (tt'' & Hset'' & Hstep); try done.
      assert (length (drop (length T) W) < length W) as Hlt.
      { pose proof (feed_prefix _ _ _ _ _ _ _ _ _ Hfeed) as Hpre.
        rewrite Hpre at 2. rewrite length_app. destruct T; [done|]. simpl. lia. }
      destruct (IH (length (drop (length T) W)))
        with (st := Locals tt'' [] data' (done st) unread' (S (built st)))
        as (Bs' & o' & Hb' & Hrun'); simpl; try done.
      { lia. }
      { by rewrite Hpend, <- pending_source. }
      { destruct data' as [d|]; simpl; [by constructor|done]. }
      cbn [data unread] in Hb'. rewrite Hpend, <- pending_source in Hb'. fold W in Hb'.
      exists (T :: Bs'), o'. split; [by apply batching_more|].
      intros Hr. destruct (Hrun' Hr) as (fuel0 & Hrun'').
      exists (S fuel0). intros fuel Hfuel. destruct fuel as [|fuel]; [lia|].
      rewrite Hstep, Hrun'' by lia.
      change (mbind ?f (Ok ?x)) with (f x). cbv beta iota.
      rewrite (kept_cons T) by exact HT. reflexivity.
  - destruct Hv as [-> ->].
    exists [T], Returned. split; [by apply batching_stop|]. intros _. exists 2.
    eapply exec_chunks_last; try done. lia.
Qed.

End Runs.

(** ** Standard input as lines and as tokens *)

Lemma getdelim_concat d s : concat (getdelim d s) = s.
Proof.
  induction s as [|c r IH]; simpl; [done|].
  destruct (Byte.eqb c d); simpl; [by rewrite IH|].
  destruct (getdelim d r) as [|l ls]; simpl in *; [by subst|]. by rewrite <- IH.
Qed.

Lemma getdelim_nul_free d s : nul_free s -> Forall nul_free (getdelim d s).
Proof.
  intros Hs. rewrite <- (getdelim_concat d s) in Hs.
  induction (getdelim d s) as [|l ls IH]; [constructor|].
  simpl in Hs. apply nul_free_app in Hs as [Hl Hls]. constructor; auto.
Qed.

Lemma words_nonempty a l : isspace a = false -> words (a :: l) <> [].
Proof.
  intros Ha. simpl. rewrite Ha. destruct l as [|c l]; [done|].
  destruct (isspace c); [done|]. by destruct (words (c :: l)).
Qed.

Lemma words_cons2 c a l :
  words (c :: a :: l) =
  if isspace c then words (a :: l)
  else if isspace a then [c] :: words (a :: l)
  else match words (a :: l) with
       | w :: ws => (c :: w) :: ws
       | [] => [[c]]
       end.
Proof. reflexivity. Qed.

(** Reading line by line and splitting each line into words gives the
    words of the whole input. *)
Lemma getdelim_words s : lines_tokens false (getdelim x0a s) = words s.
Proof.
  induction s as [|c r IH]; [done|].
  cbn [getdelim]. destruct (Byte.eqb c x0a) eqn:Hc.
  { apply Byte.byte_dec_bl in Hc as ->. rewrite lines_tokens_cons, IH. done. }
  destruct (getdelim x0a r) as [|l ls] eqn:Hg.
  { pose proof (getdelim_concat x0a r) as Hr. rewrite Hg in Hr. simpl in Hr. subst r.
    unfold lines_tokens. simpl. by rewrite app_nil_r. }
  rewrite lines_tokens_cons in IH |- *.
  destruct r as [|a r0]; [done|].
  assert (exists l1, l = a :: l1) as [l1 ->].
  { cbn [getdelim] in Hg. destruct (Byte.eqb a x0a); [injection Hg as <- _; by eexists|].
    destruct (getdelim x0a r0); injection Hg as <- _; by eexists. }
  cbn [line_tokens] in IH |- *.
  rewrite !words_cons2. destruct (isspace c); [done|].
  destruct (isspace a) eqn:Ha; [by rewrite <- IH|].
  pose proof (words_nonempty a l1 Ha) as Hne.
  destruct (words (a :: l1)) as [|w0 ws]; [done|].
  rewrite <- IH. reflexivity.
Qed.

Lemma getdelim_records s : lines_tokens true (getdelim x00 s) = cstr <$> getdelim x00 s.
Proof.
  unfold lines_tokens. induction (getdelim x00 s) as [|l ls IH]; [done|].
  rewrite !fmap_cons. simpl. by rewrite IH.
Qed.

(** ** xargs_main against the command lines of its input *)

Lemma default_echo_flags toys :
  FLAG_0 (default_echo toys) = FLAG_0 toys
  /\ FLAG_o (default_echo toys) = FLAG_o toys
  /\ FLAG_p (default_echo toys) = FLAG_p toys
  /\ FLAG_r (default_echo toys) = FLAG_r toys.
Proof. unfold default_echo. by destruct (length (optargs toys) =? 0)%nat. Qed.

(** The locals [entries] and [bytes] of [xargs_main]. *)
Definition command_bytes (toys : toy_context) : Z :=
  prefix_bytes (optargs (default_echo toys)) (-1).

Theorem xargs_main_spec sizeof_charp toys s n E w :
  (0 <= n)%Z ->
  (FLAG_0 toys = false -> nul_free (stdin w)) ->
  exists Bs o,
    batching sizeof_charp (command_bytes toys) (FLAG_0 toys)
      (effective_s (parsed s n E) w) n E
      (input_tokens (FLAG_0 toys) (stdin w)) Bs o
    /\ ((FLAG_r toys = true -> o = Returned) ->
        exists fuel0, forall fuel, fuel0 <= fuel ->
          xargs_main sizeof_charp fuel toys (parsed s n E) w
          = Ok (events_of (default_echo toys) w 0 (kept (default_echo toys) Bs), o)).
Proof.
  intros Hn Hnf. unfold xargs_main.
  set (tt1 := if (TT.s (parsed s n E) =? 0)%Z || _ then _ else _).
  set (tt2 := if negb (FLAG_0 toys) then TT.set_delim tt1 x0a else tt1).
  pose proof (default_echo_flags toys) as (H0 & Ho & Hp & Hr).
  assert (settings (FLAG_0 toys) (effective_s (parsed s n E) w) n E tt2) as Hset.
  { subst tt2 tt1. unfold settings, effective_s. simpl.
    destruct ((s =? 0)%Z || _), (FLAG_0 toys); by repeat split. }
  assert (input_tokens (FLAG_0 toys) (stdin w)
          = pending (FLAG_0 toys) None (getdelim (TT.delim tt2) (stdin w))) as HW.
  { unfold input_tokens. simpl. destruct Hset as (Hd & _).
    destruct (FLAG_0 toys) eqn:Hf.
    - apply is_nul_spec in Hd as ->. by rewrite getdelim_records.
    - subst tt2. simpl. by rewrite getdelim_words. }
  rewrite HW.
  destruct (run_spec sizeof_charp (default_echo toys) w (command_bytes toys)
              (FLAG_0 toys) (effective_s (parsed s n E) w) n E
              (length (pending (FLAG_0 toys) None (getdelim (TT.delim tt2) (stdin w))))
              (Locals tt2 [] None 0 (getdelim (TT.delim tt2) (stdin w)) 0))
    as (Bs & o & Hb & Hrun); simpl; try done.
  { destruct (FLAG_0 toys) eqn:Hf.
    - apply Forall_forall. intros; by left.
    - specialize (Hnf eq_refl). eapply Forall_impl; [by apply getdelim_nul_free|].
      intros l Hl. by right. }
  exists Bs, o. split; [done|]. rewrite <- Hr. exact Hrun.
Qed.

(** ** Facts about command lines *)

Section FeedFacts.

Variable cost : list byte -> Z.
Variables lim n : Z.
Variable E : option (list byte).
Hypothesis cost_nonneg : forall t, (0 <= cost t)%Z.



Lemma total_cost_nonneg T : (0 <= total_cost cost T)%Z.
Proof.
  induction T as [|t T IH]; unfold total_cost in *; simpl; [lia|].
  pose proof (cost_nonneg t). lia.
Qed.


End FeedFacts.


Section BatchingFacts.

Variable sizeof_charp : Z.
Variable bytes : Z.
Variable null : bool.
Variables lim n : Z.
Variable E : option (list byte).

Hypothesis sizeof_charp_nonneg : (0 <= sizeof_charp)%Z.
Hypothesis n_nonneg : (0 <= n)%Z.

Abbreviation batching := (batching sizeof_charp bytes null lim n E).
Abbreviation batch_feed := (batch_feed sizeof_charp bytes null lim n E).
Abbreviation cost := (token_cost sizeof_charp null).


Lemma token_cost_length t : (Z.of_nat (length t) < cost t)%Z.
Proof. unfold token_cost, ws_cost. destruct null; lia. Qed.





(** The bytes of the tokens on a command line stay below the byte
    limit. *)
Lemma batching_bytes W Bs o :
  (lim <> 0)%Z -> (0 <= bytes)%Z ->
  batching W Bs o ->
  Forall (fun T => (Z.of_nat (length (concat T)) < lim)%Z \/ T = []) Bs.
Proof.
  intros Hlim Hbytes.
  assert (forall T, (Z.of_nat (length (concat T)) <= total_cost cost T)%Z) as Hlen.
  { induction T as [|t T IH]; unfold total_cost in *; simpl; [lia|].
    rewrite length_app. pose proof (token_cost_length t). lia. }
  assert (forall W T v, batch_feed W = (T, v) ->
            (Z.of_nat (length (concat T)) < lim)%Z \/ T = []) as Hone.
  { intros W0 T v Hf. destruct (decide (T = [])) as [|HT]; [by right|left].
    pose proof (feed_bytes _ _ _ _ _ _ _ _ _ Hf Hlim HT). specialize (Hlen T). lia. }
  induction 1 as [W T Hf|W T Hf Hfull|W T Hf|W Hf|W T Bs o Hf HT Hb IH].
  - constructor; [by eapply Hone|constructor].
  - constructor; [by eapply Hone|]. constructor; [by right|constructor].
  - constructor; [by eapply Hone|constructor].
  - constructor.
  - constructor; [by eapply Hone|done].
Qed.


End BatchingFacts.

(** ** Events and the tokens they carry *)

Lemma collected_event_of toys w k T :
  collected (length (optargs toys)) (event_of toys w k T) = T.
Proof.
  unfold event_of, collected.
  destruct (if FLAG_p toys then fyesno w k else true); simpl;
    by rewrite drop_app_length' by (by rewrite length_fmap).
Qed.

Lemma collected_events_of toys w k Bs :
  collected (length (optargs toys)) <$> events_of toys w k Bs = Bs.
Proof.
  revert k. induction Bs as [|T Bs IH]; intros k; [done|].
  simpl events_of. by rewrite fmap_cons, collected_event_of, IH.
Qed.


Lemma Forall_kept toys (P : list (list byte) -> Prop) Bs :
  Forall P Bs -> Forall P (kept toys Bs).
Proof.
  unfold kept. destruct (FLAG_r toys); [|done].
  induction 1 as [|T Bs HT _ IH]; [constructor|].
  destruct (decide (T = [])) as [->|Hne].
  - by rewrite filter_cons_False by (by intros []).
  - rewrite filter_cons_True by done. by constructor.
Qed.



(** Text has no NUL byte: required of standard input unless -0 is
    given. *)
Definition text_input (toys : toy_context) (w : world) : Prop :=
  FLAG_0 toys = false -> nul_free (stdin w).

(** * The claims *)

(** ** Exit status of the command *)

Lemma WTERMSIG_low status :
  (0 <= status < 128)%Z -> WTERMSIG status = status.
Proof.
  intros H. unfold WTERMSIG. change 127%Z with (Z.ones 7).
  rewrite Z.land_ones by lia. apply Z.mod_small. simpl. lia.
Qed.

(** A child that calls [exit(code)] is decoded to [code]. *)
Lemma decode_status_exited code :
  (0 <= code < 256)%Z -> decode_status (Z.shiftl code 8) = code.
Proof.
  intros H. unfold decode_status, WIFEXITED, WTERMSIG, WEXITSTATUS.
  assert (Z.land (Z.shiftl code 8) 127 = 0)%Z as ->.
  { apply Z.bits_inj'. intros i Hi. rewrite Z.land_spec, Z.bits_0.
    destruct (Z.lt_ge_cases i 8).
    - by rewrite Z.shiftl_spec_low.
    - change 127%Z with (Z.ones 7). rewrite Z.ones_spec_high by lia. apply andb_false_r. }
  simpl.
  assert (Z.land (Z.shiftl code 8) 65280 = Z.shiftl code 8) as ->.
  { apply Z.bits_inj'. intros i Hi. rewrite Z.land_spec.
    destruct (Z.lt_ge_cases i 8).
    - by rewrite Z.shiftl_spec_low.
    - rewrite Z.shiftl_spec by lia.
      destruct (Z.lt_ge_cases i 16).
      + change 65280%Z with (Z.shiftl (Z.ones 8) 8).
        rewrite Z.shiftl_spec by lia. rewrite Z.ones_spec_low by lia. apply andb_true_r.
      + assert (Z.testbit code (i - 8) = false) as ->; [|done].
        destruct (Z.eq_dec code 0%Z) as [->|]; [apply Z.bits_0|].
        apply Z.bits_above_log2; [lia|].
        assert (Z.log2 code < 8)%Z; [|lia]. apply Z.log2_lt_pow2; lia. }
  rewrite Z.shiftr_shiftl_l by lia. simpl. apply Z.shiftl_0_r.
Qed.

(** A child killed by signal [sig] is decoded to [sig + 127]. *)
Lemma decode_status_signaled sig :
  (1 <= sig < 128)%Z -> decode_status sig = (sig + 127)%Z.
Proof.
  intros H. unfold decode_status, WIFEXITED. rewrite WTERMSIG_low by lia.
  by destruct (Z.eqb_spec sig 0); [lia|].
Qed.

(** C2: the child's disposition after [waitpid] is its exit code when
    it exited, and 128 plus the signal number when a signal killed it.
    The code adds 127: a child killed by SIGKILL (9) is decoded to
    136, and not to 137. *)
Theorem decode_status_SIGKILL :
  decode_status 9 = 136%Z /\ decode_status 9 <> (128 + 9)%Z.
Proof. by vm_compute. Qed.

(** ** The exit code 255 *)

(** A command that always exits with code 255. *)
Definition exits_255 (stream : list byte) : world :=
  {| stdin := stream;
     wait_status := fun _ _ => Z.shiftl 255 8;
     fyesno := fun _ => true;
     sysconf_ARG_MAX := 131072;
     environ_bytes := 0 |}.

Definition no_flags (args : list (list byte)) : toy_context :=
  Build_toy_context args false false false false false.

Definition bs (x : string) : list byte := list_byte_of_string x.

(** C1: after a command that exits with code 255 no further command
    is run.  [xargs -n 1] on the input [a b] runs the command three
    times although each run exits with 255. *)
Theorem exit_255_does_not_stop :
  xargs_main 8 4 (no_flags []) (parsed 0 1 None) (exits_255 (bs "a b" ++ [x0a]))
  = Ok ([Run [bs "echo"; bs "a"] false 255;
         Run [bs "echo"; bs "b"] false 255;
         Run [bs "echo"] false 255], Returned).
Proof. by vm_compute. Qed.

(** ** Lines refused with -0 *)

(** C5, as the code has it: with -0 the line accounts for
    [sizeof(char * ) + strlen + 1] bytes, added to [TT.bytes] before
    the comparison with [TT.s]; when the byte limit or the entry limit
    refuses the line, the call returns the line itself, the line, the
    vector and [TT.entries] are as before, and [TT.bytes] keeps the
    bytes added. *)
Theorem handle_entries_null_refused sizeof_charp tt blk line entry out :
  is_nul (TT.delim tt) = true ->
  let accounted := (TT.bytes tt + (sizeof_charp + Z.of_nat (strlen line) + 1))%Z in
  (TT.s tt <> 0 /\ TT.s tt <= accounted)%Z \/ (TT.n tt <> 0 /\ TT.n tt <= TT.entries tt)%Z ->
  handle_entries sizeof_charp tt blk line entry out
  = Ok (Hleft 0, TT.set_bytes tt accounted, line, out).
Proof.
  intros Hd accounted Hwhy. unfold handle_entries. rewrite Hd. cbn [negb].
  fold accounted. cbn [TT.s TT.n TT.bytes TT.entries TT.set_bytes].
  destruct (Z.eqb_spec (TT.s tt) 0) as [Hs|Hs], (Z.geb_spec accounted (TT.s tt)) as [Hb|Hb];
    simpl; try done;
    (destruct Hwhy as [[? ?]|[Hn He]]; [lia|];
     destruct (Z.eqb_spec (TT.n tt) 0), (Z.geb_spec (TT.entries tt) (TT.n tt));
     simpl; try done; lia).
Qed.

Lemma handle_entries_null_refused_witness :
  let tt := TT.mk 10 0 None 0 4 x00 false in
  handle_entries 8 tt 0 (bs "abc") None []
  = Ok (Hleft 0, TT.set_bytes tt 16, bs "abc", []).
Proof.
  intros tt.
  apply (handle_entries_null_refused 8 tt 0 (bs "abc") None []); [reflexivity|].
  left. vm_compute. split; [discriminate|discriminate].
Defined.

(** C5 as stated fails: the line [abc], refused by the byte limit 10
    with 4 bytes used, leaves [TT.bytes] at 16. *)
Lemma null_refused_bytes_changed :
  let tt := TT.mk 10 0 None 0 4 x00 false in
  exists tt', handle_entries 8 tt 0 (bs "abc") None [] = Ok (Hleft 0, tt', bs "abc", [])
    /\ TT.entries tt' = TT.entries tt
    /\ TT.bytes tt' <> TT.bytes tt.
Proof. eexists. split; [by vm_compute|]. by vm_compute. Qed.

(** ** Runs against their input *)

(** The host limit [posix_max_bytes] of [xargs_main]. *)
Definition posix_max_bytes (w : world) : Z :=
  (sysconf_ARG_MAX w - environ_bytes w - 2048)%Z.

Lemma effective_s_user s n E w :
  (0 < s)%Z -> posix_max_bytes w <> 0%Z ->
  (effective_s (parsed s n E) w <> 0 /\ effective_s (parsed s n E) w <= s)%Z.
Proof.
  unfold effective_s, posix_max_bytes. simpl. intros Hs Hp.
  destruct (Z.eqb_spec s 0); [lia|]. simpl.
  destruct (Z.gtb_spec s (sysconf_ARG_MAX w - environ_bytes w - 2048)); lia.
Qed.


Lemma prefix_bytes_ge args b : (b <= prefix_bytes args b)%Z.
Proof. revert b. induction args as [|a args IH]; intros b; simpl; [lia|]. specialize (IH (b + Z.of_nat (strlen a) + 1)%Z). lia. Qed.

Lemma command_bytes_nonneg toys : (0 <= command_bytes toys)%Z.
Proof.
  unfold command_bytes, default_echo.
  destruct (length (optargs toys) =? 0) eqn:Hl; [done|].
  destruct (optargs toys) as [|a args]; [done|]. simpl.
  pose proof (prefix_bytes_ge args (-1 + Z.of_nat (strlen a) + 1)%Z). lia.
Qed.

Lemma command_length toys : length (command toys) = length (optargs (default_echo toys)).
Proof. apply length_fmap. Qed.





(** The tokens of the events of a run are its command lines. *)
Lemma collected_run toys w Bs :
  collected (length (command toys))
    <$> events_of (default_echo toys) w 0 (kept (default_echo toys) Bs)
  = kept (default_echo toys) Bs.
Proof. rewrite command_length. apply collected_events_of. Qed.




(** A host where [sysconf(_SC_ARG_MAX) - environ_bytes() - 2048] is
    [limit]: the environment takes up the rest of 128 KiB. *)
Definition host (limit : Z) (stream : list byte) : world :=
  {| stdin := stream;
     wait_status := fun _ _ => 0%Z;
     fyesno := fun _ => true;
     sysconf_ARG_MAX := 131072;
     environ_bytes := 131072 - 2048 - limit |}.




(** ** The entry limit *)









(** ** The byte limit *)





(** With -s B on a host whose limit is not zero, the bytes of the
    tokens on a command line stay below B. *)
Theorem byte_limit_bounds_command_lines sizeof_charp toys B n E w :
  (0 <= sizeof_charp)%Z -> (0 <= n)%Z -> text_input toys w ->
  (0 < B)%Z -> posix_max_bytes w <> 0%Z ->
  exists evs o,
    ((FLAG_r toys = true -> o = Returned) ->
     exists fuel0, forall fuel, fuel0 <= fuel ->
       xargs_main sizeof_charp fuel toys (parsed B n E) w = Ok (evs, o))
    /\ Forall (fun ev =>
                 (Z.of_nat (length (concat (collected (length (command toys)) ev))) < B)%Z)
         evs.
Proof.
  intros HP Hn Htext HB Hhost.
  destruct (xargs_main_spec sizeof_charp toys B n E w Hn Htext) as (Bs & o & Hb & Hrun).
  pose proof (effective_s_user B n E w HB Hhost) as [Hlim0 HlimB].
  exists (events_of (default_echo toys) w 0 (kept (default_echo toys) Bs)), o.
  split; [done|].
  pose proof (batching_bytes sizeof_charp (command_bytes toys) (FLAG_0 toys)
                (effective_s (parsed B n E) w) n E HP
                _ Bs o Hlim0 (command_bytes_nonneg toys) Hb) as HBs.
  apply (Forall_kept (default_echo toys)) in HBs. rewrite <- (collected_run toys w) in HBs.
  revert HBs. generalize (events_of (default_echo toys) w 0 (kept (default_echo toys) Bs)).
  intros evs Hevs. induction evs as [|ev evs IH]; [constructor|].
  rewrite fmap_cons in Hevs. inversion Hevs as [|? ? Hev Hevs']; subst.
  constructor; [|by apply IH]. destruct Hev as [?| ->]; [lia|]. simpl. lia.
Qed.

(** C7: with -s B the bytes of the tokens on a command line stay below
    B.  On a host where [sysconf(_SC_ARG_MAX) - environ_bytes() - 2048]
    is 0 the clamp of [TT.s] sets it to 0, which the tokenizer reads
    as no limit: with -s 5 a word of ten bytes goes on a command
    line. *)
Theorem zero_host_limit_drops_byte_limit :
  xargs_main 8 3 (no_flags []) (parsed 5 0 None) (host 0 (bs "aaaaaaaaaa" ++ [x0a]))
  = Ok ([Run [bs "echo"; bs "aaaaaaaaaa"] false 0], Returned).
Proof. vm_compute. reflexivity. Qed.

(** ** The filling pass against the counting pass *)




Section Replay.

Variable sizeof_charp : Z.




End Replay.



(** * Further properties *)

(** ** What a call of handle_entries leaves alone *)

(** What a call may do to a byte of the line: leave it, or, when it
    fills a vector, overwrite whitespace with NUL. *)
Definition blanked (fill : bool) (c c' : byte) : Prop :=
  c' = c \/ (fill = true /\ isspace c = true /\ c' = x00).

Lemma blanked_refl fill l : Forall2 (blanked fill) l l.
Proof. induction l as [|c l IH]; constructor; [by left|done]. Qed.

Lemma blanked_blank fill sp :
  Forall (fun c => isspace c = true) sp ->
  Forall2 (blanked fill) sp (blank fill <$> sp).
Proof.
  induction 1 as [|c sp Hc _ IH]; [constructor|].
  rewrite fmap_cons. constructor; [|done]. destruct fill; [by right|by left].
Qed.

Lemma blanked_counting l l' : Forall2 (blanked false) l l' -> l' = l.
Proof.
  induction 1 as [|c c' l l' [->|(?&_)] _ IH]; [done| |done]. by rewrite IH.
Qed.

Lemma span_token_nonempty k t k' :
  is_nul (hd x00 k) = false -> isspace (hd x00 k) = false ->
  span_token k = (t, k') -> length k' < length k.
Proof.
  intros Hn Hs. destruct k as [|c k]; [done|]. simpl in Hn, Hs |- *.
  rewrite Hn, Hs. simpl. destruct (span_token k) as [t0 k0] eqn:Ht. intros [= <- <-].
  destruct (span_token_app _ _ _ Ht) as (-> & _). rewrite length_app. lia.
Qed.

(** The slots of the vector a call can store into, for the entry
    counts before and after it. *)
Definition window (entry : option nat) (e e' : Z) (i : nat) : Prop :=
  match entry with
  | Some base => base + Z.to_nat e <= i < base + Z.to_nat e'
  | None => False
  end.

Lemma chop_inv fuel : forall tt blk bef aft entry out r tt' buf o,
  chop fuel tt blk (Cursor bef aft) entry out = Ok (r, tt', buf, o) ->
  frame tt tt' /\ (TT.entries tt <= TT.entries tt')%Z /\ (TT.bytes tt <= TT.bytes tt')%Z
  /\ (exists aft', buf = rev bef ++ aft'
        /\ Forall2 (blanked (bool_decide (entry <> None))) aft aft')
  /\ length o = length out
  /\ (entry = None -> o = out)
  /\ ((0 <= TT.entries tt)%Z ->
      forall i, ~ window entry (TT.entries tt) (TT.entries tt') i -> o !! i = out !! i).
Proof.
  induction fuel as [|fuel IH]; intros tt blk bef aft entry out r tt' buf o; [done|].
  rewrite chop_S. cbv zeta. unfold deref, offset, contents. cbn [before after].
  set (fill := bool_decide (entry <> None)).
  assert (forall buf0 aft' r0 tt1,
            buf0 = rev bef ++ aft' -> Forall2 (blanked fill) aft aft' ->
            frame tt tt1 -> TT.entries tt1 = TT.entries tt ->
            (TT.bytes tt <= TT.bytes tt1)%Z ->
            Ok (r0, tt1, buf0, out) = Ok (r, tt', buf, o) ->
            frame tt tt' /\ (TT.entries tt <= TT.entries tt')%Z
            /\ (TT.bytes tt <= TT.bytes tt')%Z
            /\ (exists aft', buf = rev bef ++ aft' /\ Forall2 (blanked fill) aft aft')
            /\ length o = length out
            /\ (entry = None -> o = out)
            /\ ((0 <= TT.entries tt)%Z ->
                forall i, ~ window entry (TT.entries tt) (TT.entries tt') i ->
                          o !! i = out !! i)) as Hleaf.
  { intros buf0 aft' r0 tt1 Hbuf Hbl Hfr He Hb [= <- <- <- <-].
    split_and!; [done|lia|done|by exists aft'|done|done|done]. }
  destruct (is_nul (hd x00 aft)).
  { apply Hleaf with (aft' := aft); [done|apply blanked_refl|apply frame_refl|done|lia]. }
  destruct (span_space aft) as [sp k] eqn:Hsp.
  destruct (span_space_app _ _ _ Hsp) as (Haft & Hspf & Hk).
  rewrite (skip_space_spec _ _ _ _ _ Hsp). cbn [before after].
  assert (Forall2 (blanked fill) aft ((blank fill <$> sp) ++ k)) as Hbl1.
  { rewrite Haft. apply Forall2_app; [by apply blanked_blank|apply blanked_refl]. }
  destruct (negb (TT.n tt =? 0)%Z && (TT.entries tt >=? TT.n tt)%Z).
  { apply Hleaf with (aft' := (blank fill <$> sp) ++ k);
      [apply rev_skip|done|apply frame_refl|done|lia]. }
  destruct (is_nul (hd x00 k)) eqn:Hk0.
  { apply Hleaf with (aft' := (blank fill <$> sp) ++ k);
      [apply rev_skip|done|apply frame_refl|done|lia]. }
  destruct (span_token k) as [t k'] eqn:Ht.
  rewrite (scan_token_spec _ _ _ _ _ _ Ht).
  destruct ((TT.s tt =? 0)%Z || _) eqn:Hfit.
  2: { apply Hleaf with (aft' := (blank fill <$> sp) ++ k);
         [apply rev_skip|done|by repeat split|done|].
       cbn [TT.bytes TT.set_bytes]. apply orb_false_elim in Hfit as [_ Hlt].
       apply Z.ltb_ge in Hlt.
       destruct (Z.geb_spec (TT.bytes tt + 1) (TT.s tt)); lia. }
  destruct (span_token_app _ _ _ Ht) as (Hkt & Htok & Htnf & Hk').
  assert (rev (rev t ++ rev (blank fill <$> sp) ++ bef) ++ k'
          = rev bef ++ ((blank fill <$> sp) ++ t ++ k')) as Hbuf2.
  { by rewrite !rev_app_distr, !rev_involutive, <- !app_assoc. }
  assert (Forall2 (blanked fill) aft ((blank fill <$> sp) ++ t ++ k')) as Hbl2
    by (by rewrite <- Hkt).
  cbn [TT.E TT.set_bytes TT.entries].
  destruct (match TT.E tt with Some e => _ | None => false end).
  { apply Hleaf with (aft' := (blank fill <$> sp) ++ t ++ k');
      [done|done|by repeat split|done|simpl; lia]. }
  destruct (store_entry entry out (TT.entries tt) _) as [out1| |] eqn:Hst; [|done|done].
  change (mbind ?f (Ok ?x)) with (f x). cbv beta.
  intros Hrec. apply IH in Hrec
    as ((?&?&?&?&?) & Hle & Hb & (aft2 & -> & Hbl3) & Hlen & Hnone & Hwin).
  cbn [TT.s TT.n TT.E TT.delim TT.tty TT.entries TT.bytes TT.set_entries TT.set_bytes] in *.
  assert (length out1 = length out
          /\ (entry = None -> out1 = out)
          /\ ((0 <= TT.entries tt)%Z ->
              forall i, ~ window entry (TT.entries tt) (TT.entries tt + 1) i ->
                        out1 !! i = out !! i)) as (Hlen1 & Hnone1 & Hwin1).
  { destruct entry as [base|]; cbn [store_entry] in Hst.
    - destruct (_ && _) eqn:Hin; [|done]. injection Hst as <-.
      split_and!; [apply length_insert|done|]. intros He i Hi.
      apply list_lookup_insert_ne. intros <-. apply Hi. simpl. lia.
    - by injection Hst as <-. }
  split_and!; [by repeat split|lia|lia| |lia|intros Hn; by rewrite Hnone, Hnone1|].
  - exists ((blank fill <$> sp) ++ t ++ aft2). split.
    + by rewrite !rev_app_distr, !rev_involutive, <- !app_assoc.
    + rewrite Haft, Hkt. apply Forall2_app; [by apply blanked_blank|].
      apply Forall2_app; [apply blanked_refl|done].
  - intros He i Hi. rewrite Hwin, Hwin1; [done|done| |lia|].
    + intros Hw. apply Hi. destruct entry as [base|]; simpl in *; lia.
    + intros Hw. apply Hi. destruct entry as [base|]; simpl in *; lia.
Qed.

Lemma chop_fuel fuel : forall tt blk bef aft entry out,
  length aft < fuel ->
  chop fuel tt blk (Cursor bef aft) entry out <> OutOfFuel
  /\ (entry = None -> chop fuel tt blk (Cursor bef aft) entry out <> Fault).
Proof.
  induction fuel as [|fuel IH]; intros tt blk bef aft entry out Hfuel; [lia|].
  rewrite chop_S. cbv zeta. unfold deref, offset, contents. cbn [before after].
  destruct (is_nul (hd x00 aft)); [done|].
  destruct (span_space aft) as [sp k] eqn:Hsp.
  destruct (span_space_app _ _ _ Hsp) as (Haft & Hspf & Hk).
  rewrite (skip_space_spec _ _ _ _ _ Hsp). cbn [before after].
  destruct (negb (TT.n tt =? 0)%Z && (TT.entries tt >=? TT.n tt)%Z); [done|].
  destruct (is_nul (hd x00 k)) eqn:Hk0; [done|].
  destruct (span_token k) as [t k'] eqn:Ht.
  rewrite (scan_token_spec _ _ _ _ _ _ Ht).
  pose proof (span_token_nonempty _ _ _ Hk0 Hk Ht) as Hshort.
  destruct ((TT.s tt =? 0)%Z || _); [|done].
  cbn [TT.E TT.set_bytes TT.entries].
  destruct (match TT.E tt with Some e => _ | None => false end); [done|].
  assert (length k' < fuel) as Hfuel'.
  { rewrite Haft, length_app in Hfuel. lia. }
  destruct entry as [base|]; cbn [store_entry].
  - destruct (_ && _); [|done].
    change (mbind ?f (Ok ?x)) with (f x). cbv beta. by apply IH.
  - change (mbind ?f (Ok ?x)) with (f x). cbv beta. by apply IH.
Qed.

Section CallFacts.

Variable sizeof_charp : Z.

(** A call of [handle_entries] leaves [TT.s], [TT.n], [TT.E],
    [TT.delim] and [TT.tty] as they are, and lowers neither
    [TT.entries] nor [TT.bytes]. *)
Theorem handle_entries_keeps_settings tt blk line entry out r tt' line' out' :
  (0 <= sizeof_charp)%Z ->
  handle_entries sizeof_charp tt blk line entry out = Ok (r, tt', line', out') ->
  frame tt tt' /\ (TT.entries tt <= TT.entries tt')%Z /\ (TT.bytes tt <= TT.bytes tt')%Z.
Proof.
  intros HP. unfold handle_entries. destruct (negb (is_nul (TT.delim tt))).
  { intros H. apply chop_inv in H as (?&?&?&_). done. }
  cbn [TT.s TT.n TT.bytes TT.entries TT.set_bytes].
  destruct (negb (TT.s tt =? 0)%Z && _);
    [intros [= <- <- <- <-]; split_and!; [by repeat split|simpl; lia|simpl; lia]|].
  destruct (negb (TT.n tt =? 0)%Z && _);
    [intros [= <- <- <- <-]; split_and!; [by repeat split|simpl; lia|simpl; lia]|].
  destruct (store_entry _ _ _ _) as [out1| |]; [|done|done].
  change (mbind ?f (Ok ?x)) with (f x). cbv beta.
  intros [= <- <- <- <-]. split_and!; [by repeat split|simpl; lia|simpl; lia].
Qed.

(** A call changes no byte of the line but whitespace, which a filling
    call overwrites with NUL: the bytes of the tokens stay. *)
Theorem handle_entries_blanks_whitespace_only tt blk line entry out r tt' line' out' :
  handle_entries sizeof_charp tt blk line entry out = Ok (r, tt', line', out') ->
  Forall2 (blanked (bool_decide (entry <> None))) line line'.
Proof.
  unfold handle_entries. destruct (negb (is_nul (TT.delim tt))).
  { intros H. apply chop_inv in H as (_&_&_&(aft' & -> & Hbl)&_). done. }
  destruct (_ && _); [intros [= <- <- <- <-]; apply blanked_refl|].
  destruct (_ && _); [intros [= <- <- <- <-]; apply blanked_refl|].
  destruct (store_entry _ _ _ _) as [out1| |]; [|done|done].
  change (mbind ?f (Ok ?x)) with (f x). cbv beta.
  intros [= <- <- <- <-]. apply blanked_refl.
Qed.

(** A counting call ([entry == NULL]) writes nothing: the line and the
    vector are as before. *)
Theorem handle_entries_counting_reads_only tt blk line out r tt' line' out' :
  handle_entries sizeof_charp tt blk line None out = Ok (r, tt', line', out') ->
  line' = line /\ out' = out.
Proof.
  unfold handle_entries. destruct (negb (is_nul (TT.delim tt))).
  { intros H. apply chop_inv in H as (_&_&_&(aft' & -> & Hbl)&_&Hout&_).
    split; [|by apply Hout]. simpl. f_equal.
    rewrite bool_decide_eq_false_2 in Hbl by (by intros []).
    by apply blanked_counting. }
  cbn [store_entry].
  destruct (_ && _); [by intros [= <- <- <- <-]|].
  destruct (_ && _); [by intros [= <- <- <- <-]|].
  change (mbind ?f (Ok ?x)) with (f x). cbv beta. by intros [= <- <- <- <-].
Qed.

(** A filling call keeps the length of the vector and stores only into
    the slots [entry[TT.entries]] for the entry counts it passes
    through: the slots before them (the fixed arguments among them) and
    the slots after them (the terminating null pointer among them) are
    as before. *)
Theorem handle_entries_stores_in_window tt blk line entry out r tt' line' out' :
  (0 <= TT.entries tt)%Z ->
  handle_entries sizeof_charp tt blk line entry out = Ok (r, tt', line', out') ->
  length out' = length out
  /\ forall i, ~ window entry (TT.entries tt) (TT.entries tt') i -> out' !! i = out !! i.
Proof.
  intros He. unfold handle_entries. destruct (negb (is_nul (TT.delim tt))).
  { intros H. apply chop_inv in H as (_&_&_&_&Hlen&_&Hwin). split; [done|by apply Hwin]. }
  cbn [TT.s TT.n TT.bytes TT.entries TT.set_bytes].
  destruct (_ && _); [by intros [= <- <- <- <-]|].
  destruct (_ && _); [by intros [= <- <- <- <-]|].
  destruct entry as [base|]; cbn [store_entry].
  - destruct (_ && _) eqn:Hin; [|done].
    change (mbind ?f (Ok ?x)) with (f x). cbv beta. intros [= <- <- <- <-].
    split; [apply length_insert|]. intros i Hi.
    apply list_lookup_insert_ne. intros <-. apply Hi. simpl. lia.
  - change (mbind ?f (Ok ?x)) with (f x). cbv beta. by intros [= <- <- <- <-].
Qed.

(** The loop [while ( *s)] ends on every line: a call returns, or (a
    filling call only) stores outside the vector. *)
Theorem handle_entries_returns tt blk line entry out :
  handle_entries sizeof_charp tt blk line entry out <> OutOfFuel
  /\ (entry = None ->
      exists x, handle_entries sizeof_charp tt blk line entry out = Ok x).
Proof.
  assert (handle_entries sizeof_charp tt blk line entry out <> OutOfFuel
          /\ (entry = None ->
              handle_entries sizeof_charp tt blk line entry out <> Fault)) as [H1 H2].
  { unfold handle_entries. destruct (negb (is_nul (TT.delim tt))).
    { apply chop_fuel. lia. }
    destruct (_ && _); [done|]. destruct (_ && _); [done|].
    destruct entry as [base|]; cbn [store_entry].
    - destruct (_ && _); [|done]. done.
    - done. }
  split; [done|]. intros Hn. specialize (H2 Hn).
  destruct (handle_entries sizeof_charp tt blk line entry out) as [x| |]; [by exists x|done|done].
Qed.

(** With -0 a call takes the whole line as one entry or nothing of it:
    it returns NULL or [data], never 1 or 2, leaves the line as it is,
    and accounts [sizeof(char * ) + strlen(data) + 1] bytes either
    way. *)
Theorem handle_entries_null_whole_line tt blk line entry out r tt' line' out' :
  is_nul (TT.delim tt) = true ->
  handle_entries sizeof_charp tt blk line entry out = Ok (r, tt', line', out') ->
  line' = line
  /\ TT.bytes tt' = (TT.bytes tt + (sizeof_charp + Z.of_nat (strlen line) + 1))%Z
  /\ ((r = Hnull /\ TT.entries tt' = (TT.entries tt + 1)%Z)
      \/ (r = Hleft 0 /\ TT.entries tt' = TT.entries tt /\ out' = out)).
Proof.
  intros Hd. unfold handle_entries. rewrite Hd. cbn [negb].
  cbn [TT.s TT.n TT.bytes TT.entries TT.set_bytes].
  destruct (_ && _); [intros [= <- <- <- <-]; split_and!; [done|done|by right]|].
  destruct (_ && _); [intros [= <- <- <- <-]; split_and!; [done|done|by right]|].
  destruct (store_entry _ _ _ _) as [out1| |]; [|done|done].
  change (mbind ?f (Ok ?x)) with (f x). cbv beta.
  intros [= <- <- <- <-]. split_and!; [done|done|by left].
Qed.

End CallFacts.

(** The theorems of this section at the line [a bb], and at [a b] with -0. *)

Lemma handle_entries_keeps_settings_witness :
  let tt := TT.mk 0 0 None 0 0 x0a false in
  let tt' := TT.mk 0 0 None 2 5 x0a false in
  frame tt tt' /\ (TT.entries tt <= TT.entries tt')%Z /\ (TT.bytes tt <= TT.bytes tt')%Z.
Proof.
  intros tt tt'.
  apply (handle_entries_keeps_settings 8 tt 0 (bs "a bb") None [] Hnull tt' (bs "a bb") []);
    [lia|reflexivity].
Defined.

Lemma handle_entries_blanks_whitespace_only_witness :
  Forall2 (blanked (bool_decide (Some 1 <> None))) (bs "a bb") [x61; x00; x62; x62].
Proof.
  apply (handle_entries_blanks_whitespace_only 8 (TT.mk 0 0 None 0 0 x0a false) 0
           (bs "a bb") (Some 1) [Some (ArgStr 0); None; None; None] Hnull
           (TT.mk 0 0 None 2 5 x0a false) [x61; x00; x62; x62]
           [Some (ArgStr 0); Some (LinePtr 0 0); Some (LinePtr 0 2); None]).
  reflexivity.
Defined.

Lemma handle_entries_counting_reads_only_witness :
  bs "a bb" = bs "a bb" /\ [Some (ArgStr 0); None] = [Some (ArgStr 0); None].
Proof.
  apply (handle_entries_counting_reads_only 8 (TT.mk 0 0 None 0 0 x0a false) 0
           (bs "a bb") [Some (ArgStr 0); None] Hnull (TT.mk 0 0 None 2 5 x0a false)).
  reflexivity.
Defined.

Lemma handle_entries_stores_in_window_witness :
  let out := [Some (ArgStr 0); None; None; None] in
  let out' := [Some (ArgStr 0); Some (LinePtr 0 0); Some (LinePtr 0 2); None] in
  length out' = length out
  /\ forall i, ~ window (Some 1) 0 2 i -> out' !! i = out !! i.
Proof.
  intros out out'.
  apply (handle_entries_stores_in_window 8 (TT.mk 0 0 None 0 0 x0a false) 0
           (bs "a bb") (Some 1) out Hnull (TT.mk 0 0 None 2 5 x0a false)
           [x61; x00; x62; x62] out'); [simpl; lia|reflexivity].
Defined.

Lemma handle_entries_null_whole_line_witness :
  let tt := TT.mk 0 0 None 0 0 x00 false in
  let tt' := TT.mk 0 0 None 1 12 x00 false in
  bs "a b" = bs "a b"
  /\ TT.bytes tt' = (TT.bytes tt + (8 + Z.of_nat (strlen (bs "a b")) + 1))%Z
  /\ ((Hnull = Hnull /\ TT.entries tt' = (TT.entries tt + 1)%Z)
      \/ (Hnull = Hleft 0 /\ TT.entries tt' = TT.entries tt /\ @nil (option charp) = [])).
Proof.
  intros tt tt'.
  apply (handle_entries_null_whole_line 8 tt 0 (bs "a b") None [] Hnull tt' (bs "a b") []);
    reflexivity.
Defined.

(** ** Runs that never return, and what a result says *)

Lemma exec_chunks_S sizeof_charp toys w fuel entries bytes st :
  exec_chunks sizeof_charp toys w (S fuel) entries bytes st =
  if bool_decide (data st <> None) || (done st =? 0)%Z then
    let tt := TT.set_bytes (TT.set_entries (tt st) 0) bytes in
    '(tt, dlist, data, done, unread) ←
       count_pass sizeof_charp tt (dlist st) (data st) (done st) (unread st);
    if (TT.entries tt =? 0)%Z && FLAG_r toys then
      exec_chunks sizeof_charp toys w fuel entries bytes
        (Locals tt dlist data done unread (built st))
    else if bool_decide (data <> None) && (TT.entries tt =? 0)%Z then
      Ok ([], ErrorExit "argument too long")
    else
      let out := alloc_out entries (TT.entries tt) in
      let tt := TT.set_bytes (TT.set_entries tt 0) bytes in
      '(tt, lines, out) ← fill_pass sizeof_charp tt 0 dlist entries out;
      argv ← argv_of (optargs toys) lines out;
      let doit := if FLAG_p toys then fyesno w (built st) else true in
      let tt := if FLAG_p toys then TT.set_tty tt true else tt in
      let ev :=
        if doit
        then Run argv (FLAG_o toys) (decode_status (wait_status w (built st) argv))
        else Declined argv in
      '(evs, o) ← exec_chunks sizeof_charp toys w fuel entries bytes
                    (Locals tt [] data done unread (S (built st)));
      Ok (ev :: evs, o)
  else Ok ([], Returned).
Proof. reflexivity. Qed.



Section Stuck.

Variable sizeof_charp : Z.
Variable toys : toy_context.
Variable w : world.
Variable bytes : Z.
Variable null : bool.
Variables lim n : Z.
Variable E : option (list byte).
Hypothesis n_nonneg : (0 <= n)%Z.

Abbreviation settings' := (settings null lim n E).
Abbreviation batch_feed' := (batch_feed sizeof_charp bytes null lim n E).
Abbreviation batching' := (batching sizeof_charp bytes null lim n E).




End Stuck.

(** ** What every result of xargs_main says *)





(** Without -r a run on text returns: standard input is finite, each
    iteration of the loop through exec chunks takes at least one token
    or ends the run. *)
Theorem run_without_r_returns sizeof_charp toys s n E w :
  (0 <= n)%Z -> text_input toys w -> FLAG_r toys = false ->
  exists evs o fuel0, forall fuel, fuel0 <= fuel ->
    xargs_main sizeof_charp fuel toys (parsed s n E) w = Ok (evs, o).
Proof.
  intros Hn Htext Hr.
  destruct (xargs_main_spec sizeof_charp toys s n E w Hn Htext) as (Bs & o & _ & Hrun).
  destruct Hrun as (fuel0 & Hrun); [by rewrite Hr|]. by eexists _, o, fuel0.
Qed.

Lemma run_without_r_returns_witness :
  exists evs o fuel0, forall fuel, fuel0 <= fuel ->
    xargs_main 8 fuel (no_flags []) (parsed 0 1 None) (exits_255 (bs "a b" ++ [x0a]))
    = Ok (evs, o).
Proof.
  apply (run_without_r_returns 8 (no_flags []) 0 1 None (exits_255 (bs "a b" ++ [x0a])));
    [lia|intros _; repeat constructor|reflexivity].
Defined.













(** ** The child, its standard input and its status *)

Lemma WTERMSIG_range status : (0 <= WTERMSIG status < 128)%Z.
Proof.
  unfold WTERMSIG. change 127%Z with (Z.ones 7). rewrite Z.land_ones by lia.
  apply Z.mod_pos_bound. reflexivity.
Qed.

Lemma WEXITSTATUS_range status : (0 <= WEXITSTATUS status < 256)%Z.
Proof.
  unfold WEXITSTATUS. rewrite Z.shiftr_land. change (Z.shiftr 65280 8) with (Z.ones 8).
  rewrite Z.land_ones by lia. apply Z.mod_pos_bound. reflexivity.
Qed.

(** Whatever [waitpid] stores, the decoded status is a number from 0
    to 255. *)
Theorem decode_status_range status : (0 <= decode_status status <= 255)%Z.
Proof.
  unfold decode_status.
  pose proof (WTERMSIG_range status). pose proof (WEXITSTATUS_range status).
  destruct (WIFEXITED status); lia.
Qed.

Lemma decode_status_exited_witness : decode_status (Z.shiftl 3 8) = 3%Z.
Proof. apply (decode_status_exited 3). lia. Defined.

(** The same host with other children: [waitpid] stores what [f]
    says. *)
Definition with_status (w : world) (f : nat -> list (list byte) -> Z) : world :=
  {| stdin := stdin w;
     wait_status := f;
     fyesno := fyesno w;
     sysconf_ARG_MAX := sysconf_ARG_MAX w;
     environ_bytes := environ_bytes w |}.

Definition forget_status (ev : event) : event :=
  match ev with
  | Run argv stdin_tty _ => Run argv stdin_tty 0
  | Declined argv => Declined argv
  end.

(** A result without the statuses of the children. *)
Definition command_lines (r : res (list event * outcome)) : res (list event * outcome) :=
  match r with
  | Ok (evs, o) => Ok (forget_status <$> evs, o)
  | Fault => Fault
  | OutOfFuel => OutOfFuel
  end.

Lemma command_lines_cons ev r :
  command_lines ('(evs, o) ← r; Ok (ev :: evs, o))
  = '(evs, o) ← command_lines r; Ok (forget_status ev :: evs, o).
Proof. by destruct r as [[evs o]| |]. Qed.

Lemma exec_chunks_status sizeof_charp toys w f entries bytes fuel : forall st,
  command_lines (exec_chunks sizeof_charp toys w fuel entries bytes st)
  = command_lines (exec_chunks sizeof_charp toys (with_status w f) fuel entries bytes st).
Proof.
  induction fuel as [|fuel IH]; intros st; [done|].
  rewrite !exec_chunks_S. cbv zeta.
  destruct (_ || _); [|done].
  destruct (count_pass _ _ _ _ _ _) as [[[[[tt1 dl1] d1] dn1] u1]| |]; [|done|done].
  change (mbind ?f (Ok ?x)) with (f x). cbv beta iota.
  destruct (_ && _); [apply IH|].
  destruct (_ && _); [done|].
  destruct (fill_pass _ _ _ _ _ _) as [[[tt2 ls2] out2]| |]; [|done|done].
  change (mbind ?f (Ok ?x)) with (f x). cbv beta iota.
  destruct (argv_of _ _ _) as [argv| |]; [|done|done].
  change (mbind ?f (Ok ?x)) with (f x). cbv beta iota.
  rewrite !command_lines_cons, IH. cbn [fyesno wait_status with_status].
  by destruct (if FLAG_p toys then fyesno w (built st) else true).
Qed.

(** The status of a child is decoded and never read: which command
    lines a run builds, and how it ends, is the same whatever the
    children do. *)
Theorem status_never_read sizeof_charp fuel toys tt w f :
  command_lines (xargs_main sizeof_charp fuel toys tt w)
  = command_lines (xargs_main sizeof_charp fuel toys tt (with_status w f)).
Proof. unfold xargs_main. cbn [stdin sysconf_ARG_MAX environ_bytes with_status]. apply exec_chunks_status. Qed.




